(** * LogHub backend: bulk ingestion, log queries and project deletion

    A shallow embedding of the request handlers of [src/index.ts]
    ([POST /api/logs/bulk], [GET /api/logs/:projectId],
    [DELETE /api/projects/:id]) together with the part of the schema of
    [src/models/log.ts] the handlers rely on, and the properties of the
    batching, pagination, filtering and cascading delete logic. *)

From Stdlib Require Import ZArith Ascii String.
From stdpp Require Import gmap strings list fin_maps pretty sorting.

#[local] Set Warnings "-register-all,-clear-no-such-hyp,-abstract-large-number".
#[local] Open Scope string_scope.
#[local] Open Scope list_scope.
#[local] Open Scope nat_scope.

(** ** JavaScript values

    What [express.json()] hands to a handler: JSON values, plus
    [undefined], which is what reading an absent property gives.  Numbers
    are kept as integers; the handlers only look at their truthiness. *)

Inductive JsValue : Type :=
  | JUndefined
  | JNull
  | JBool (b : bool)
  | JNum (z : Z)
  | JStr (s : string)
  | JArr (xs : list JsValue)
  | JObj (m : gmap string JsValue).

(** An object is a finite map from property names to values. *)
Abbreviation JsObject := (gmap string JsValue).

(** [o.k]: reading an absent property yields [undefined]. *)
Definition js_get (o : JsObject) (k : string) : JsValue :=
  default JUndefined (o !! k).

(** [!v] is [negb (truthy v)]. *)
Definition truthy (v : JsValue) : bool :=
  match v with
  | JUndefined | JNull => false
  | JBool b => b
  | JNum z => negb (z =? 0)%Z
  | JStr s => negb (String.eqb s "")
  | JArr _ | JObj _ => true
  end.

(** [Array.isArray(v)] *)
Definition isArray (v : JsValue) : bool :=
  match v with JArr _ => true | _ => false end.

(** [v.length === 0] *)
Definition length_is_zero (v : JsValue) : bool :=
  match v with
  | JArr xs => length xs =? 0
  | JStr s => String.length s =? 0
  | JObj m => match m !! "length" with Some (JNum 0) => true | _ => false end
  | JUndefined | JNull | JBool _ | JNum _ => false
  end.

Fixpoint string_chars (s : string) : list string :=
  match s with
  | EmptyString => []
  | String c s' => String c EmptyString :: string_chars s'
  end.

(** The own enumerable properties copied by [{ ...l }]: those of an
    object, the indices of an array or of a string, none for the other
    primitives. *)
Definition spread (l : JsValue) : JsObject :=
  match l with
  | JObj m => m
  | JArr xs => list_to_map (imap (λ i x, (pretty i, x)) xs)
  | JStr s => list_to_map (imap (λ i c, (pretty i, JStr c)) (string_chars s))
  | JUndefined | JNull | JBool _ | JNum _ => ∅
  end.

(** [xs.slice(a, b)] for [0 <= a <= b]. *)
Definition slice {A : Type} (xs : list A) (a b : nat) : list A :=
  take (b - a) (drop a xs).

(** ** Responses *)

(** The documents of the [Log] collection ([ILog] of [src/models/log.ts]):
    no field but [projectId] is required by the schema. *)
Record LogDoc : Type := mkLog {
  timestamp : option string;
  level : option string;
  component : option string;
  message : option string;
  projectId : string;
  raw : option string;
  streamId : option string
}.

Inductive Body : Type :=
  | ErrorBody (error : string) (details : option string)
  | CountBody (count : nat)
  | LogsBody (logs : list LogDoc) (total : nat) (hasMore : bool)
  | DeletedBody (success : bool) (logsDeleted : nat).

Record Response : Type := mkResponse { status : nat; body : Body }.

(** ** Bulk ingestion: [POST /api/logs/bulk] *)

Definition BATCH_SIZE : nat := 5000.
Definition PARALLEL_BATCHES : nat := 4.

(** What the handler makes observable at the store: a batch write is
    dispatched when [Log.insertMany] is called, and settles with the
    value its promise chain ends in ([batch.length] after [then], [0]
    after [catch]). *)
Inductive Event (A : Type) : Type :=
  | Dispatch (batchNum : nat) (batch : list A)
  | Settle (batchNum : nat) (result : nat).
Arguments Dispatch {A} batchNum batch.
Arguments Settle {A} batchNum result.

(** What the loops of the handler carry: the running count and the
    events so far. *)
Record Coordinator (A : Type) : Type := mkCoordinator {
  insertedCount : nat;
  trace : list (Event A)
}.
Arguments mkCoordinator {A} insertedCount trace.
Arguments insertedCount {A} c.
Arguments trace {A} c.

Section Ingestion.
Context {A : Type}.

(** The store is outside the repository.  [insertMany n batch] tells
    whether the write of batch number [n] resolves ([true]) or rejects
    ([false]); [settle_order] is the order in which the writes of one
    wave, given by their batch numbers, settle. *)
Variable insertMany : nat → list A → bool.
Variable settle_order : list nat → list nat.

Variable batchSize parallelBatches : nat.
Variable logsToInsert : list A.

(** Value of the promise pushed for one batch. *)
Definition promise_result (p : nat * list A) : nat :=
  if insertMany p.1 p.2 then length p.2 else 0.

(** The inner [for (let j = 0; j < PARALLEL_BATCHES; j++)] loop, with
    [n] the number of iterations left; the result is
    [parallelPromises], each promise with its batch number and batch. *)
Fixpoint inner_loop (i j n : nat) : list (nat * list A) :=
  match n with
  | 0 => []
  | S n' =>
      let startIdx := i + j * batchSize in
      if decide (length logsToInsert ≤ startIdx) then []
      else
        let batch := slice logsToInsert startIdx (startIdx + batchSize) in
        let batchNum := startIdx / batchSize + 1 in
        (batchNum, batch) :: inner_loop i (S j) n'
  end.

(** Events of one wave: every write is dispatched while the inner loop
    runs, then [await Promise.all] returns once all have settled. *)
Definition settle_event (ps : list (nat * list A)) (n : nat) : list (Event A) :=
  match list_find (λ p, p.1 = n) ps with
  | Some (_, p) => [Settle n (promise_result p)]
  | None => []
  end.

Definition wave_events (ps : list (nat * list A)) : list (Event A) :=
  ((λ p, Dispatch p.1 p.2) <$> ps)
    ++ (settle_order (fst <$> ps) ≫= settle_event ps).

(** The outer [for (let i = 0; i < logsToInsert.length; ...)] loop.
    [None] when the fuel runs out before the loop condition fails. *)
Fixpoint outer_loop (fuel i : nat) (st : Coordinator A) : option (Coordinator A) :=
  if decide (i < length logsToInsert) then
    match fuel with
    | 0 => None
    | S fuel' =>
        let parallelPromises := inner_loop i 0 parallelBatches in
        let results := promise_result <$> parallelPromises in
        outer_loop fuel' (i + batchSize * parallelBatches)
          {| insertedCount := insertedCount st + sum_list results;
             trace := trace st ++ wave_events parallelPromises |}
    end
  else Some st.
End Ingestion.

(** [logs.map(l => ({ ...l, projectId }))] *)
Definition stamp (projectId l : JsValue) : JsObject :=
  <["projectId" := projectId]> (spread l).

(** The handler with the two constants as parameters.  The result is the
    response and the store events, or [None] if the loop does not end. *)
Definition bulk_handler_with (batchSize parallelBatches : nat)
    (insertMany : nat → list JsObject → bool)
    (settle_order : list nat → list nat)
    (reqBody : JsObject) : option (Response * list (Event JsObject)) :=
  let projectId := js_get reqBody "projectId" in
  let logs := js_get reqBody "logs" in
  if negb (truthy logs) || negb (isArray logs) || length_is_zero logs
  then Some (mkResponse 400 (ErrorBody "No logs provided" None), [])
  else
    match logs with
    | JArr entries =>
        let logsToInsert := stamp projectId <$> entries in
        st ← outer_loop insertMany settle_order batchSize parallelBatches
               logsToInsert (S (length logsToInsert)) 0 (mkCoordinator 0 []);
        Some (mkResponse 201 (CountBody (insertedCount st)), trace st)
    | _ =>
        (* [logs.map] on a value that is not an array throws; the
           [catch] of the handler answers *)
        Some (mkResponse 500 (ErrorBody "Bulk ingestion failed"
                                (Some "logs.map is not a function")), [])
    end.

Definition bulk_handler := bulk_handler_with BATCH_SIZE PARALLEL_BATCHES.

(** ** The record store

    The handlers reach the store through Mongoose, which is not part of
    the repository. *)

(** Outcome of an awaited store promise. *)
Inductive Result (A : Type) : Type :=
  | Resolved (value : A)
  | Rejected (message : string).
Arguments Resolved {A} value.
Arguments Rejected {A} message.

(** The result of [parseInt]: an integer or [NaN].  (The rounding of
    integers beyond 2^53 is not modelled.) *)
Inductive JsNumber : Type :=
  | NaN
  | Num (z : Z).

(** The part of [IProject] the handlers touch. *)
Record ProjectDoc : Type := mkProject { _id : string; name : string }.

(** Modelled from the spec: the record store of section 4.1, which is
    reached through Mongoose and is not part of the repository.  It is
    a pair of collections and a connection flag ([connectDB] of
    [src/db.ts] lets the server run without a connection, and
    [mongoose.connection.readyState] is what [/api/health] reports); an
    operation on a store that is not connected rejects.  Identifiers
    are compared as strings.  A window is well formed when its skip is
    a non-negative integer and its limit a positive one; what the store
    makes of any other value is left open: [odd_skip] and [odd_limit]
    give the rejection, or the skip and the limit ([None]: no limit) it
    reads instead.  The order of records that a sort does not tell
    apart is left open as well, and it may change with the window asked
    for: [tie_rank skip limit] ranks the records, and of two records
    that the sort does not tell apart the one of lower rank comes
    first. *)
Record Store : Type := mkStore {
  connected : bool;
  Log : list LogDoc;
  Project : list ProjectDoc;
  odd_skip : JsNumber → Result nat;
  odd_limit : JsNumber → Result (option nat);
  tie_rank : JsNumber → JsNumber → LogDoc → nat
}.

(** ** Query parameters and their conversions *)

(** [req.query], each parameter a string when present. *)
Record QueryParams : Type := mkParams {
  q_level : option string;
  q_search : option string;
  q_start : option string;
  q_end : option string;
  q_limit : option string;
  q_skip : option string
}.

(** [if (p)] for a parameter: present and not the empty string. *)
Definition given (p : option string) : bool :=
  match p with
  | Some s => negb (String.eqb s "")
  | None => false
  end.

(** [s.split(',')] *)
Fixpoint split_comma (s : string) : list string :=
  match s with
  | EmptyString => [EmptyString]
  | String c s' =>
      if Ascii.eqb c "," then EmptyString :: split_comma s'
      else match split_comma s' with
           | w :: ws => String c w :: ws
           | [] => [String c EmptyString]
           end
  end.

Definition is_space (c : ascii) : bool :=
  let n := N_of_ascii c in
  ((9 <=? n) && (n <=? 13) || (n =? 32))%N.

Fixpoint trim_start (s : string) : string :=
  match s with
  | String c s' => if is_space c then trim_start s' else s
  | EmptyString => EmptyString
  end.

Definition digit_value (c : ascii) : option Z :=
  let n := Z.of_N (N_of_ascii c) in
  (if (48 <=? n) && (n <=? 57) then Some (n - 48)
   else if (97 <=? n) && (n <=? 122) then Some (n - 87)
   else if (65 <=? n) && (n <=? 90) then Some (n - 55)
   else None)%Z.

(** The longest prefix of digits of the radix, [acc] being the value
    read so far ([None]: no digit yet). *)
Fixpoint parse_digits (radix : Z) (s : string) (acc : option Z) : option Z :=
  match s with
  | String c s' =>
      match digit_value c with
      | Some d =>
          if (d <? radix)%Z
          then parse_digits radix s' (Some (default 0 acc * radix + d))%Z
          else acc
      | None => acc
      end
  | EmptyString => acc
  end.

Definition parse_unsigned (s : string) : option Z :=
  match s with
  | String "0" (String "x" s') | String "0" (String "X" s') =>
      parse_digits 16 s' None
  | _ => parse_digits 10 s None
  end.

(** [parseInt(s)] with no radix argument.  The white space skipped is
    that of ASCII, and the value is the integer read: it is the number
    JavaScript returns up to 2^53, beyond which JavaScript rounds. *)
Definition parseInt (s : string) : JsNumber :=
  match trim_start s with
  | String "-" s' =>
      match parse_unsigned s' with Some z => Num (- z) | None => NaN end
  | String "+" s' =>
      match parse_unsigned s' with Some z => Num z | None => NaN end
  | s' =>
      match parse_unsigned s' with Some z => Num z | None => NaN end
  end.

(** ** The filter built by [GET /api/logs/:projectId] *)

(** [{ $gte, $lte }], either possibly absent. *)
Record TimestampCond : Type := mkTimestampCond {
  gte : option string;
  lte : option string
}.

Inductive TextField : Type := FMessage | FRaw | FComponent.

(** [{ <field>: { $regex, $options } }] *)
Record RegexCond : Type := mkRegexCond {
  field : TextField;
  regex : string;
  options : string
}.

Record Filter : Type := mkFilter {
  f_projectId : string;
  f_level : option (list string);
  f_timestamp : option TimestampCond;
  f_or : option (list RegexCond)
}.

(** Lines 93 to 107 of [src/index.ts]. *)
Definition build_filter (projectId : string) (q : QueryParams) : Filter :=
  {| f_projectId := projectId;
     f_level :=
       if given (q_level q)
       then Some (split_comma (default "" (q_level q)))
       else None;
     f_timestamp :=
       if given (q_start q) || given (q_end q)
       then Some {| gte := if given (q_start q) then q_start q else None;
                    lte := if given (q_end q) then q_end q else None |}
       else None;
     f_or :=
       if given (q_search q)
       then
         let search := default "" (q_search q) in
         Some [ mkRegexCond FMessage search "i";
                mkRegexCond FRaw search "i";
                mkRegexCond FComponent search "i" ]
       else None |}.

(** ** Store operators *)

(** Modelled from the spec: the "regex-style substring matching" of the
    record store (section 4.1), which is the store's [$regex] operator
    and not part of the repository.  The pattern language covered is:
    ordinary characters, [.] (any character but a line feed) and a
    backslash followed by a metacharacter (that character itself).  Any
    other use of a metacharacter is outside the fragment; the store
    model rejects such a pattern. *)
Inductive Atom : Type :=
  | AnyChar
  | Lit (c : ascii).

Definition metacharacters : list ascii :=
  list_ascii_of_string "\^$.|?*+()[]{}".

Definition is_meta (c : ascii) : bool := bool_decide (c ∈ metacharacters).

Fixpoint compile_regex (s : string) : option (list Atom) :=
  match s with
  | EmptyString => Some []
  | String c s' =>
      if Ascii.eqb c "." then cons AnyChar <$> compile_regex s'
      else if Ascii.eqb c "\" then
        match s' with
        | String d s'' =>
            if is_meta d then cons (Lit d) <$> compile_regex s'' else None
        | EmptyString => None
        end
      else if is_meta c then None
      else cons (Lit c) <$> compile_regex s'
  end.

(** Letter case is folded on the letters A to Z. *)
Definition to_lower (c : ascii) : ascii :=
  let n := N_of_ascii c in
  if ((65 <=? n) && (n <=? 90))%N then ascii_of_N (n + 32) else c.

Definition atom_matches (caseless : bool) (a : Atom) (c : ascii) : bool :=
  match a with
  | AnyChar => negb (Ascii.eqb c "010")
  | Lit l =>
      if caseless then Ascii.eqb (to_lower l) (to_lower c) else Ascii.eqb l c
  end.

(** The pattern matches a prefix of [s]. *)
Fixpoint match_here (caseless : bool) (p : list Atom) (s : string) : bool :=
  match p, s with
  | [], _ => true
  | a :: p', String c s' => atom_matches caseless a c && match_here caseless p' s'
  | _ :: _, EmptyString => false
  end.

(** The pattern matches somewhere in [s] (an unanchored search). *)
Fixpoint regex_search (caseless : bool) (p : list Atom) (s : string) : bool :=
  match_here caseless p s
  || match s with
     | String _ s' => regex_search caseless p s'
     | EmptyString => false
     end.

Record Matcher : Type := mkMatcher {
  m_field : TextField;
  m_atoms : list Atom;
  m_caseless : bool
}.

Definition compile_cond (c : RegexCond) : option Matcher :=
  atoms ← compile_regex (regex c);
  Some (mkMatcher (field c) atoms
          (bool_decide ("i"%char ∈ list_ascii_of_string (options c)))).

(** [None]: some pattern of the [$or] clause does not compile. *)
Definition compile_or (f : Filter) : option (option (list Matcher)) :=
  match f_or f with
  | None => Some None
  | Some conds => Some <$> mapM compile_cond conds
  end.

Definition text_field (fld : TextField) (d : LogDoc) : option string :=
  match fld with
  | FMessage => message d
  | FRaw => raw d
  | FComponent => component d
  end.

(** A regex condition never holds of an absent field. *)
Definition matcher_holds (m : Matcher) (d : LogDoc) : bool :=
  match text_field (m_field m) d with
  | Some s => regex_search (m_caseless m) (m_atoms m) s
  | None => false
  end.

(** Modelled from the spec: "level-in-set" (section 4.4), the store's
    [$in] operator. *)
Definition level_holds (f : Filter) (d : LogDoc) : bool :=
  match f_level f with
  | None => true
  | Some set =>
      match level d with
      | Some l => bool_decide (l ∈ set)
      | None => false
      end
  end.

Definition bound_holds (bound : option string) (cmp : string → bool) : bool :=
  match bound with
  | None => true
  | Some b => cmp b
  end.

(** Modelled from the spec: "inclusive lower/upper on timestamp,
    compared as provided" (section 4.4), the store's [$gte] and [$lte]
    operators on strings, whose order is [String.leb]. *)
Definition timestamp_holds (f : Filter) (d : LogDoc) : bool :=
  match f_timestamp f with
  | None => true
  | Some cond =>
      match timestamp d with
      | Some t =>
          bound_holds (gte cond) (λ b, String.leb b t)
          && bound_holds (lte cond) (λ b, String.leb t b)
      | None =>
          match gte cond, lte cond with
          | None, None => true
          | _, _ => false
          end
      end
  end.

(** The [$or] clause: one of the conditions holds. *)
Definition or_holds (ms : option (list Matcher)) (d : LogDoc) : bool :=
  match ms with
  | None => true
  | Some ms => existsb (λ m, matcher_holds m d) ms
  end.

(** Modelled from the spec: the filter expression of section 4.4, the
    conjunction of projectId equality and of the clauses present. *)
Definition doc_matches (f : Filter) (ms : option (list Matcher)) (d : LogDoc) : bool :=
  String.eqb (projectId d) (f_projectId f)
  && level_holds f d && timestamp_holds f d && or_holds ms d.

(** Modelled from the spec: the documents a filter selects, in
    collection order; the store rejects when it is not connected or
    when a pattern does not compile. *)
Definition matching (f : Filter) (st : Store) : Result (list LogDoc) :=
  if connected st then
    match compile_or f with
    | Some ms => Resolved (filter (λ d, doc_matches f ms d) (Log st))
    | None => Rejected "Regular expression is invalid"
    end
  else Rejected "Operation buffering timed out".

(** Modelled from the spec: "count records matching a filter". *)
Definition countDocuments (f : Filter) (st : Store) : Result nat :=
  match matching f st with
  | Resolved ds => Resolved (length ds)
  | Rejected m => Rejected m
  end.

(** Descending timestamps, documents without one last. *)
Definition newer_first (d1 d2 : LogDoc) : Prop :=
  match timestamp d1, timestamp d2 with
  | _, None => True
  | None, Some _ => False
  | Some t1, Some t2 => String.leb t2 t1
  end.

(** The paths of [LogSchema] and the value a record has at a path. *)
Inductive Path : Type :=
  | PTimestamp | PLevel | PComponent | PMessage | PProjectId | PRaw | PStreamId.

Definition path_value (p : Path) (d : LogDoc) : option string :=
  match p with
  | PTimestamp => timestamp d
  | PLevel => level d
  | PComponent => component d
  | PMessage => message d
  | PProjectId => Some (projectId d)
  | PRaw => raw d
  | PStreamId => streamId d
  end.

(** [{ <path>: <direction> }], the argument of [sort]. *)
Record SortSpec : Type := mkSort { sort_path : Path; sort_direction : Z }.

(** Modelled from the spec: the order of the "ordered window" of
    section 4.1, the store's sort on a path.  Direction 1 is ascending
    and -1 descending; the store rejects any other.  Strings are
    ordered by [String.leb] and a record without a value at the path
    sorts below every string. *)
Definition read_direction (direction : Z) : Result bool :=
  if (direction =? 1)%Z then Resolved true
  else if (direction =? -1)%Z then Resolved false
  else Rejected "Invalid sort value".

Definition key_le (k1 k2 : option string) : bool :=
  match k1, k2 with
  | None, _ => true
  | Some _, None => false
  | Some s1, Some s2 => String.leb s1 s2
  end.

(** The keys [k1], [k2] are in the order asked for. *)
Definition in_order (ascending : bool) (k1 k2 : option string) : bool :=
  if ascending then key_le k1 k2 else key_le k2 k1.

(** [d1] may come before [d2]: their keys are in order and, when the
    sort does not tell them apart, [d1] is not of higher rank. *)
Definition sorts_before (path : Path) (ascending : bool) (rank : LogDoc → nat)
    (d1 d2 : LogDoc) : Prop :=
  in_order ascending (path_value path d1) (path_value path d2) = true
  ∧ (in_order ascending (path_value path d2) (path_value path d1) = true →
     rank d1 ≤ rank d2).

#[global] Instance sorts_before_dec path ascending rank d1 d2 :
  Decision (sorts_before path ascending rank d1 d2).
Proof. unfold sorts_before. apply _. Defined.

(** How the store reads the skip and the limit of a window. *)
Definition read_skip (st : Store) (skip : JsNumber) : Result nat :=
  match skip with
  | Num s => if (0 <=? s)%Z then Resolved (Z.to_nat s) else odd_skip st skip
  | NaN => odd_skip st skip
  end.

Definition read_limit (st : Store) (limit : JsNumber) : Result (option nat) :=
  match limit with
  | Num l => if (0 <? l)%Z then Resolved (Some (Z.to_nat l)) else odd_limit st limit
  | NaN => odd_limit st limit
  end.

Definition apply_limit (limit : option nat) (ds : list LogDoc) : list LogDoc :=
  match limit with
  | Some n => take n ds
  | None => ds
  end.

(** Modelled from the spec: "fetch a bounded, ordered window of records
    matching a filter" (section 4.4: at most [limit] records in the
    order asked for, skipping [skip]). *)
Definition find_sort_skip_limit (f : Filter) (sort : SortSpec)
    (skip limit : JsNumber) (st : Store) : Result (list LogDoc) :=
  match matching f st with
  | Rejected m => Rejected m
  | Resolved ds =>
      match read_direction (sort_direction sort),
            read_skip st skip, read_limit st limit with
      | Resolved ascending, Resolved s, Resolved l =>
          Resolved
            (apply_limit l
               (drop s
                  (merge_sort
                     (sorts_before (sort_path sort) ascending
                        (tie_rank st skip limit)) ds)))
      | Rejected m, _, _ | _, Rejected m, _ | _, _, Rejected m => Rejected m
      end
  end.

(** Modelled from the spec: "delete all records for a given project".
    The result is the collection left and [deletedCount]. *)
Definition deleteMany (id : string) (st : Store) : Result (list LogDoc * nat) :=
  if connected st then
    let left := filter (λ d, projectId d ≠ id) (Log st) in
    Resolved (left, length (Log st) - length left)
  else Rejected "Operation buffering timed out".

(** Modelled from the spec: deletion of the project record
    ([Project.findByIdAndDelete]).  The result is the collection left
    and the document removed, if there was one. *)
Definition findByIdAndDelete (id : string) (st : Store)
    : Result (list ProjectDoc * option ProjectDoc) :=
  if connected st then
    Resolved (filter (λ p, _id p ≠ id) (Project st),
              head (filter (λ p, _id p = id) (Project st)))
  else Rejected "Operation buffering timed out".

(** ** [GET /api/logs/:projectId] *)

Definition js_add (a b : JsNumber) : JsNumber :=
  match a, b with
  | Num x, Num y => Num (x + y)
  | _, _ => NaN
  end.

(** [a > b]: false as soon as one side is [NaN]. *)
Definition js_gt (a b : JsNumber) : bool :=
  match a, b with
  | Num x, Num y => (y <? x)%Z
  | _, _ => false
  end.

(** Lines 113 and 114 of [src/index.ts]. *)
Definition page_limit (q : QueryParams) : JsNumber :=
  if given (q_limit q) then parseInt (default "" (q_limit q)) else Num 50000.

Definition page_skip (q : QueryParams) : JsNumber :=
  if given (q_skip q) then parseInt (default "" (q_skip q)) else Num 0.

Definition get_logs_handler (st : Store) (projectId : string)
    (q : QueryParams) : Response :=
  let query := build_filter projectId q in
  match countDocuments query st with
  | Rejected m => mkResponse 500 (ErrorBody "Failed to fetch logs" (Some m))
  | Resolved totalCount =>
      let pageLimit := page_limit q in
      let pageSkip := page_skip q in
      match find_sort_skip_limit query (mkSort PTimestamp (-1))
              pageSkip pageLimit st with
      | Rejected m =>
          mkResponse 500 (ErrorBody "Failed to fetch logs" (Some m))
      | Resolved logs =>
          mkResponse 200
            (LogsBody logs totalCount
               (js_gt (Num (Z.of_nat totalCount))
                  (js_add pageSkip (Num (Z.of_nat (length logs))))))
      end
  end.

(** ** [DELETE /api/projects/:id] *)

(** The two legs of [Promise.all] work on different collections; the
    handler answers 500 as soon as one of them rejects. *)
Definition delete_project_handler (st : Store) (id : string) : Store * Response :=
  let logResult := deleteMany id st in
  let projectResult := findByIdAndDelete id st in
  let st' :=
    {| connected := connected st;
       Log := match logResult with Resolved (l, _) => l | Rejected _ => Log st end;
       Project :=
         match projectResult with Resolved (p, _) => p | Rejected _ => Project st end;
       odd_skip := odd_skip st;
       odd_limit := odd_limit st;
       tie_rank := tie_rank st |} in
  match logResult, projectResult with
  | Resolved (_, deletedCount), Resolved _ =>
      (st', mkResponse 200 (DeletedBody true deletedCount))
  | Rejected m, _ | _, Rejected m =>
      (st', mkResponse 500 (ErrorBody "Failed to delete project" (Some m)))
  end.

(** ** The search clause as the specification words it

    A term occurs in a field as a case-insensitive substring. *)

Definition lower (s : string) : list ascii :=
  to_lower <$> list_ascii_of_string s.

Definition ci_substring (term fld : string) : Prop :=
  ∃ pre post, lower fld = (pre ++ lower term ++ post)%list.

Definition occurs_in (term : string) (fld : option string) : Prop :=
  ∃ s, fld = Some s ∧ ci_substring term s.

(** No metacharacter of the pattern language occurs in the term. *)
Definition plain_term (term : string) : Prop :=
  Forall (λ c, c ∉ metacharacters) (list_ascii_of_string term).

(** What the level and time parameters of a query ask of a record. *)
Definition in_level_set (q : QueryParams) (d : LogDoc) : Prop :=
  given (q_level q) = true →
  ∃ l, level d = Some l ∧ l ∈ split_comma (default "" (q_level q)).

Definition not_before_start (q : QueryParams) (d : LogDoc) : Prop :=
  given (q_start q) = true →
  ∃ t, timestamp d = Some t ∧ String.leb (default "" (q_start q)) t = true.

Definition not_after_end (q : QueryParams) (d : LogDoc) : Prop :=
  given (q_end q) = true →
  ∃ t, timestamp d = Some t ∧ String.leb t (default "" (q_end q)) = true.

(** ** The partition and the waves as the specification words them *)

(** [Math.ceil(n / b)] *)
Definition ceil_div (n b : nat) : nat := (n + b - 1) / b.

(** Line 152 of [src/index.ts]. *)
Definition totalBatches {A : Type} (batchSize : nat) (logsToInsert : list A) : nat :=
  ceil_div (length logsToInsert) batchSize.

(** Batch number [k + 1] of the partition and its records. *)
Definition batch_at {A : Type} (batchSize : nat) (logsToInsert : list A)
    (k : nat) : nat * list A :=
  (k + 1, slice logsToInsert (k * batchSize) (k * batchSize + batchSize)).

(** The batches of a request in partition order. *)
Definition partition {A : Type} (batchSize : nat) (logsToInsert : list A)
    : list (nat * list A) :=
  batch_at batchSize logsToInsert <$> seq 0 (totalBatches batchSize logsToInsert).

(** Wave [w]: at most [parallelBatches] consecutive batches. *)
Definition wave {A : Type} (batchSize parallelBatches : nat)
    (logsToInsert : list A) (w : nat) : list (nat * list A) :=
  batch_at batchSize logsToInsert
    <$> seq (w * parallelBatches)
          (parallelBatches `min`
             (totalBatches batchSize logsToInsert - w * parallelBatches)).

(** The waves from the [w]-th on, when [n] are left. *)
Definition waves_from {A : Type} (batchSize parallelBatches : nat)
    (logsToInsert : list A) (w n : nat) : list (list (nat * list A)) :=
  wave batchSize parallelBatches logsToInsert <$> seq w n.

(** The wave a batch number belongs to. *)
Definition wave_of (parallelBatches batchNum : nat) : nat :=
  (batchNum - 1) / parallelBatches.

(** The writes dispatched along a trace, in dispatch order. *)
Definition dispatched {A : Type} (t : list (Event A)) : list (nat * list A) :=
  omap (λ e, match e with
             | Dispatch n b => Some (n, b)
             | Settle _ _ => None
             end) t.

(** The batch numbers of the writes in flight after the events of [t],
    [acc] being those in flight before. *)
Fixpoint pending_from {A : Type} (acc : list nat) (t : list (Event A)) : list nat :=
  match t with
  | [] => acc
  | Dispatch n _ :: t' => pending_from (acc ++ [n]) t'
  | Settle n _ :: t' => pending_from (filter (λ m, m ≠ n) acc) t'
  end.

Definition in_flight {A : Type} (t : list (Event A)) : list nat :=
  pending_from [] t.

(** The batches whose write rejects. *)
Definition failed_batches {A : Type} (insertMany : nat → list A → bool)
    (ps : list (nat * list A)) : list (nat * list A) :=
  filter (λ p, insertMany p.1 p.2 = false) ps.

(** Total number of records in a list of batches. *)
Definition records_in {A : Type} (ps : list (nat * list A)) : nat :=
  sum_list ((λ p, length p.2) <$> ps).

(** Along [t], starting with the writes [acc] in flight: never more
    than [parallelBatches] writes are in flight, and a write is only
    dispatched while every write in flight is of its own wave. *)
Fixpoint wave_safe {A : Type} (parallelBatches : nat) (acc : list nat)
    (t : list (Event A)) : Prop :=
  length acc ≤ parallelBatches
  ∧ match t with
    | [] => True
    | Dispatch n _ :: t' =>
        (∀ m, m ∈ acc → wave_of parallelBatches m = wave_of parallelBatches n)
        ∧ wave_safe parallelBatches (acc ++ [n]) t'
    | Settle n _ :: t' =>
        wave_safe parallelBatches (filter (λ m, m ≠ n) acc) t'
    end.

(** ** The schema's requirement on [projectId]

    Line 19 of [src/models/log.ts]: the path is required and of type
    ObjectId.  [is_ObjectId] stands for Mongoose's cast to an ObjectId,
    which is not part of the repository. *)
Definition projectId_valid (is_ObjectId : JsValue → bool) (doc : JsObject) : bool :=
  match doc !! "projectId" with
  | None | Some JUndefined | Some JNull => false
  | Some v => is_ObjectId v
  end.

(** Modelled from the spec: the batch write of section 4.3, "unordered
    internally (individual record failures inside a batch do not abort
    the batch; the store is instructed to continue past individual
    document errors)".  It is [Log.insertMany] with [ordered: false]
    (line 166 of [src/index.ts]), which is Mongoose's and not part of
    the repository.  A document that fails the schema is an individual
    record failure: it is left out, the others are stored, and the
    write resolves with the documents stored.  The write rejects when
    the store cannot be reached. *)
Definition unordered_insertMany (is_ObjectId : JsValue → bool) (reachable : bool)
    (batch : list JsObject) : Result (list JsObject) :=
  if reachable
  then Resolved (filter (λ doc, projectId_valid is_ObjectId doc) batch)
  else Rejected "Operation buffering timed out".

(** Whether an awaited promise resolved. *)
Definition resolved {A : Type} (r : Result A) : bool :=
  match r with
  | Resolved _ => true
  | Rejected _ => false
  end.

(** The writes of such a store as the handler sees them. *)
Definition unordered_store (is_ObjectId : JsValue → bool) (reachable : bool)
    (n : nat) (batch : list JsObject) : bool :=
  resolved (unordered_insertMany is_ObjectId reachable batch).

(** ** Sample requests and stores *)

(** An entry that carries a projectId of its own. *)
Definition sample_entry : JsValue :=
  JObj (<["message" := JStr "disk full"]> {["projectId" := JStr "other"]}).

Definition sample_project : JsValue := JStr "65f1c0ffee0123456789abcd".

Definition sample_request (n : nat) : JsObject :=
  <["projectId" := sample_project]>
    {["logs" := JArr (replicate n sample_entry)]}.

Definition request_without_project (n : nat) : JsObject :=
  {["logs" := JArr (replicate n sample_entry)]}.

Definition request_without_logs : JsObject :=
  {["projectId" := sample_project]}.

(** A store whose second write rejects. *)
Definition second_fails (n : nat) (batch : list JsObject) : bool :=
  negb (n =? 2).

Definition has_24_characters (v : JsValue) : bool :=
  match v with
  | JStr s => String.length s =? 24
  | _ => false
  end.

Definition no_params : QueryParams := mkParams None None None None None None.

Definition log_abc : LogDoc :=
  mkLog (Some "2024-05-01T10:00:00Z") (Some "ERROR") None (Some "abc")
    "p1" None None.

Definition log_timeout : LogDoc :=
  mkLog (Some "2024-05-02T08:30:00Z") (Some "WARN") (Some "gateway")
    (Some "Upstream TIMEOUT after 30s") "p1" None None.

Definition log_other : LogDoc :=
  mkLog (Some "2024-05-02T09:00:00Z") (Some "INFO") None (Some "started")
    "p2" None None.

(** A store that rejects every window that is not well formed, and
    ranks all records alike. *)
Definition sample_store : Store :=
  mkStore true [log_abc; log_timeout; log_other] [mkProject "p1" "First"]
    (λ _, Rejected "skip must be a non-negative integer")
    (λ _, Rejected "limit must be a positive integer")
    (λ _ _ _, 0).

(** A store that reads such a window as no skip and no limit. *)
Definition lenient_store : Store :=
  mkStore true [log_abc; log_timeout; log_other] [mkProject "p1" "First"]
    (λ _, Resolved 0) (λ _, Resolved None) (λ _ _ _, 0).

(** Sample queries. *)
Definition first_page : QueryParams :=
  mkParams None None None None (Some "1") None.

Definition errors_and_warnings_in_window : QueryParams :=
  mkParams (Some "ERROR,WARN") None
    (Some "2024-05-01T10:00:00Z") (Some "2024-05-02T08:30:00Z") None None.

Definition search_timeout : QueryParams :=
  mkParams None (Some "timeout") None None (Some "10") (Some "0").

Definition search_a_dot_c : QueryParams :=
  mkParams None (Some "a.c") None None None None.

Definition skip_abc : QueryParams :=
  mkParams None None None None (Some "1") (Some "abc").

(** A record with the timestamp of [log_abc]. *)
Definition log_twin : LogDoc :=
  mkLog (Some "2024-05-01T10:00:00Z") (Some "INFO") None (Some "xyz")
    "p1" None None.

(** A store with two records of one timestamp, which puts [log_abc]
    first when no record is skipped and [log_twin] first otherwise. *)
Definition fickle_store : Store :=
  mkStore true [log_abc; log_twin] [mkProject "p1" "First"]
    (λ _, Rejected "skip must be a non-negative integer")
    (λ _, Rejected "limit must be a positive integer")
    (λ skip _ d,
       match skip with
       | Num Z0 => if decide (message d = Some "abc") then 0 else 1
       | _ => if decide (message d = Some "abc") then 1 else 0
       end).

(** Twenty-five records that hold the word timeout. *)
Definition store_of_timeouts : Store :=
  mkStore true (replicate 25 log_timeout) [mkProject "p1" "First"]
    (λ _, Rejected "skip must be a non-negative integer")
    (λ _, Rejected "limit must be a positive integer")
    (λ _ _ _, 0).

(** ** The summary endpoints: [POST /api/analyze] and [POST /api/anomalies] *)

(** Awaited promises and [try]/[catch]: the first rejection or throw
    ends the computation. *)
#[global] Instance result_ret : MRet Result := λ A x, Resolved x.

#[global] Instance result_bind : MBind Result :=
  λ A B f r, match r with Resolved x => f x | Rejected m => Rejected m end.

(** [v.k] for a key that is not inherited from a prototype: reading a
    property of [null] or [undefined] throws. *)
Definition js_prop (v : JsValue) (k : string) : Result JsValue :=
  match v with
  | JUndefined =>
      Rejected ("Cannot read properties of undefined (reading '" +:+ k +:+ "')")
  | JNull =>
      Rejected ("Cannot read properties of null (reading '" +:+ k +:+ "')")
  | JObj m => Resolved (js_get m k)
  | JArr xs =>
      if String.eqb k "length" then Resolved (JNum (Z.of_nat (length xs)))
      else Resolved (default JUndefined (spread v !! k))
  | JStr s =>
      if String.eqb k "length" then Resolved (JNum (Z.of_nat (String.length s)))
      else Resolved (default JUndefined (spread v !! k))
  | JBool _ | JNum _ => Resolved JUndefined
  end.

(** Joining rendered array elements with commas. *)
Definition join_elements (parts : list (Result string)) : Result string :=
  strings ← mapM id parts; mret (String.concat "," strings).

(** The string a value becomes inside a template literal.  An array is
    its elements joined by commas, [null] and [undefined] elements being
    empty; an object is [[object Object]], unless it has a [toString]
    property of its own, which, coming from JSON, is not a function: the
    conversion then throws.  (Integers of 22 digits and more, which
    JavaScript writes with an exponent, are not modelled.) *)
Fixpoint js_to_string (v : JsValue) : Result string :=
  match v with
  | JUndefined => Resolved "undefined"
  | JNull => Resolved "null"
  | JBool b => Resolved (if b then "true" else "false")
  | JNum z => Resolved (pretty z)
  | JStr s => Resolved s
  | JArr xs =>
      join_elements
        ((fix elements (xs : list JsValue) : list (Result string) :=
            match xs with
            | [] => []
            | JUndefined :: xs' | JNull :: xs' => Resolved "" :: elements xs'
            | x :: xs' => js_to_string x :: elements xs'
            end) xs)
  | JObj m =>
      match m !! "toString" with
      | Some _ => Rejected "Cannot convert object to primitive value"
      | None => Resolved "[object Object]"
      end
  end.

Definition newline : string := String "010" "".

(** [`[${log.timestamp || 'NO_TS'}] [${log.level}] ${log.message}`] *)
Definition log_line (log : JsValue) : Result string :=
  ts ← js_prop log "timestamp";
  ts_text ← js_to_string (if truthy ts then ts else JStr "NO_TS");
  lvl ← js_prop log "level";
  lvl_text ← js_to_string lvl;
  msg ← js_prop log "message";
  msg_text ← js_to_string msg;
  mret ("[" +:+ ts_text +:+ "] [" +:+ lvl_text +:+ "] " +:+ msg_text).

(** [logs.slice(0, 150).map(...).join('\n')] *)
Definition logSnapshot (logs : list JsValue) : Result string :=
  lines ← mapM log_line (slice logs 0 150);
  mret (String.concat newline lines).

(** What is sent to [openai.chat.completions.create]; the temperature
    is kept as a fraction. *)
Record ChatMessage : Type := mkChatMessage { role : string; content : string }.

Record ChatRequest : Type := mkChatRequest {
  model : string;
  messages : list ChatMessage;
  temperature : positive * positive;
  max_tokens : nat
}.

(** What comes back: [response.choices], each choice with its message,
    if any, and the message with its content, if any. *)
Record ChatReply : Type := mkChatReply { reply_content : option string }.

Record Choice : Type := mkChoice { choice_message : option ChatReply }.

(** [response.choices[0]?.message?.content] *)
Definition first_content (choices : list Choice) : option string :=
  c ← head choices; m ← choice_message c; reply_content m.

(** [content || fallback] *)
Definition or_fallback (content : option string) (fallback : string) : string :=
  match content with
  | Some s => if String.eqb s "" then fallback else s
  | None => fallback
  end.

Record JsonResponse : Type := mkJson { json_status : nat; json_body : JsObject }.

(** Where the two endpoints differ. *)
Record SummaryEndpoint : Type := mkSummaryEndpoint {
  instructions : list string;
  system_content : string;
  endpoint_temperature : positive * positive;
  endpoint_max_tokens : nat;
  fallback : string;
  failure : string
}.

(** The text of the analysis prompt above the log data, line by line. *)
Definition analyze_instructions : list string :=
  [ "Analyze these logs and provide a BRIEF, ACTIONABLE summary.";
    "";
    "FORMAT RULES:";
    "- Use short bullet points (max 10-15 words each)";
    "- No lengthy paragraphs or explanations";
    "- Use emojis for quick visual scanning";
    "- Only include what's actually found in the logs";
    "- If nothing found for a section, skip it entirely";
    "";
    "OUTPUT FORMAT:";
    "";
    "ðŸ“Š **Quick Stats**";
    "â€¢ Total logs: X | Errors: X | Warnings: X";
    "â€¢ Time range: [start] to [end]";
    "";
    "ðŸ”´ **Critical Issues** (if any)";
    "â€¢ [Brief issue description]";
    "â€¢ [Another issue]";
    "";
    "âš ï¸ **Warnings** (if any)";
    "â€¢ [Brief warning]";
    "";
    "ðŸ’¡ **Key Recommendations** (max 3)";
    "â€¢ [Action item 1]";
    "â€¢ [Action item 2]";
    "";
    "âœ… **Status**: [One line overall health assessment]";
    "";
    "LOG DATA:" ].

(** The text of the anomaly prompt above the log data, line by line. *)
Definition anomalies_instructions : list string :=
  [ "Scan these logs for anomalies. Be BRIEF and DIRECT.";
    "";
    "FORMAT RULES:";
    "- Short bullet points only (max 12 words each)";
    "- Use severity emojis: ðŸ”´ High, ðŸŸ  Medium, ðŸŸ¡ Low";
    "- Skip sections with no findings";
    "- No explanations, just findings";
    "";
    "OUTPUT FORMAT:";
    "";
    "ðŸ” **Anomalies Detected**";
    "";
    "ðŸ”´ **High Severity**";
    "â€¢ [What's wrong] â†’ [Impact]";
    "";
    "ðŸŸ  **Medium Severity**  ";
    "â€¢ [What's wrong] â†’ [Impact]";
    "";
    "ðŸŸ¡ **Low Severity**";
    "â€¢ [What's wrong] â†’ [Impact]";
    "";
    "ðŸŽ¯ **Action Required** (max 2 items)";
    "â€¢ [Immediate action needed]";
    "";
    "ðŸ“ˆ **Risk Level**: [Low/Medium/High/Critical] - [One sentence why]";
    "";
    "LOG DATA:" ].

Definition analyze : SummaryEndpoint :=
  {| instructions := analyze_instructions;
     system_content :=
       "You are a concise log analyst. Give brief, scannable insights. No fluff. Use bullet points. Max 200 words total.";
     endpoint_temperature := (1, 10)%positive;
     endpoint_max_tokens := 500;
     fallback := "Analysis failed.";
     failure := "Analysis failed" |}.

Definition anomalies : SummaryEndpoint :=
  {| instructions := anomalies_instructions;
     system_content :=
       "You are an anomaly detector. Be extremely concise. List only actual anomalies found. No generic advice. Max 150 words.";
     endpoint_temperature := (2, 10)%positive;
     endpoint_max_tokens := 400;
     fallback := "Detection failed.";
     failure := "Anomaly detection failed" |}.

(** The prompt: the instructions, then the snapshot on the line after
    [LOG DATA:]. *)
Definition prompt_of (e : SummaryEndpoint) (snapshot : string) : string :=
  String.concat newline (instructions e ++ [snapshot]).

Definition chat_request (e : SummaryEndpoint) (snapshot : string) : ChatRequest :=
  {| model := "gpt-4o-mini";
     messages := [ mkChatMessage "system" (system_content e);
                   mkChatMessage "user" (prompt_of e snapshot) ];
     temperature := endpoint_temperature e;
     max_tokens := endpoint_max_tokens e |}.

(** The handler of either endpoint.  [openai] is [None] when no API key
    is configured; otherwise it is the completion service, which is
    outside the repository.  The result is the response and the requests
    sent to the service. *)
Definition summary_handler (e : SummaryEndpoint)
    (openai : option (ChatRequest → Result (list Choice)))
    (reqBody : JsObject) : JsonResponse * list ChatRequest :=
  match openai with
  | None =>
      (mkJson 500 {["error" := JStr "OpenAI API key not configured on server"]}, [])
  | Some create =>
      let logs := js_get reqBody "logs" in
      if negb (truthy logs) || negb (isArray logs) || length_is_zero logs
      then (mkJson 400 {["error" := JStr "No logs provided"]}, [])
      else
        match logs with
        | JArr entries =>
            match logSnapshot entries with
            | Rejected m =>
                (mkJson 500 (<["error" := JStr (failure e)]>
                               {["details" := JStr m]}), [])
            | Resolved snapshot =>
                let request := chat_request e snapshot in
                match create request with
                | Rejected m =>
                    (mkJson 500 (<["error" := JStr (failure e)]>
                                   {["details" := JStr m]}), [request])
                | Resolved choices =>
                    (mkJson 200
                       {["result" := JStr (or_fallback (first_content choices)
                                             (fallback e))]},
                     [request])
                end
            end
        | _ =>
            (mkJson 500 (<["error" := JStr (failure e)]>
                           {["details" := JStr "logs.slice is not a function"]}), [])
        end
  end.

Definition analyze_handler := summary_handler analyze.
Definition anomalies_handler := summary_handler anomalies.

(** ** Further notions used to state properties *)

(** The writes settled along a trace, each with its result, in settling
    order. *)
Definition settled {A : Type} (t : list (Event A)) : list (nat * nat) :=
  omap (λ e, match e with
             | Settle n r => Some (n, r)
             | Dispatch _ _ => None
             end) t.

(** A parameter given as the empty string, made absent. *)
Definition absent_if_empty (p : option string) : option string :=
  if given p then p else None.

Definition without_empty (q : QueryParams) : QueryParams :=
  mkParams (absent_if_empty (q_level q)) (absent_if_empty (q_search q))
    (absent_if_empty (q_start q)) (absent_if_empty (q_end q))
    (absent_if_empty (q_limit q)) (absent_if_empty (q_skip q)).

(** The same query with another window, or another search term. *)
Definition with_window (q : QueryParams) (limit skip : option string) : QueryParams :=
  mkParams (q_level q) (q_search q) (q_start q) (q_end q) limit skip.

Definition with_search (q : QueryParams) (term : string) : QueryParams :=
  mkParams (q_level q) (Some term) (q_start q) (q_end q) (q_limit q) (q_skip q).

(** A value that is neither an array nor an object. *)
Definition primitive (v : JsValue) : bool :=
  match v with
  | JArr _ | JObj _ => false
  | JUndefined | JNull | JBool _ | JNum _ | JStr _ => true
  end.

(** An entry as a client sends it: an object whose timestamp, level and
    message are primitive values, or absent. *)
Definition plain_record (v : JsValue) : Prop :=
  ∃ m, v = JObj m
       ∧ primitive (js_get m "timestamp") = true
       ∧ primitive (js_get m "level") = true
       ∧ primitive (js_get m "message") = true.

(** The error answer of a summary endpoint. *)
Definition failure_response (e : SummaryEndpoint) (details : string) : JsonResponse :=
  mkJson 500 (<["error" := JStr (failure e)]> {["details" := JStr details]}).

(** A service that answers every request with one choice of the given
    content, and entries of the shape the client sends. *)
Definition answering (content : option string) (request : ChatRequest)
    : Result (list Choice) :=
  Resolved [mkChoice (Some (mkChatReply content))].

Definition plain_entry : JsValue :=
  JObj (<["timestamp" := JStr "2024-05-01T10:00:00Z"]>
          (<["level" := JStr "ERROR"]> {["message" := JStr "disk full"]})).

Definition request_of (entries : list JsValue) : JsObject :=
  {["logs" := JArr entries]}.

(** ** Facts about [ceil_div] and slices *)

Lemma ceil_div_le_iff (n b k : nat) :
  0 < b → ceil_div n b ≤ k ↔ n ≤ k * b.
Proof.
  intros Hb. unfold ceil_div. split.
  - intros H.
    destruct (decide (n ≤ k * b)) as [|Hn]; [done|exfalso].
    assert (k + 1 ≤ (n + b - 1) / b); [|lia].
    apply Nat.div_le_lower_bound; lia.
  - intros H.
    assert ((n + b - 1) / b < S k); [|lia].
    apply Nat.Div0.div_lt_upper_bound. lia.
Qed.

Lemma ceil_div_lt_iff (n b k : nat) :
  0 < b → k < ceil_div n b ↔ k * b < n.
Proof. intros Hb. pose proof (ceil_div_le_iff n b k Hb). lia. Qed.

Lemma ceil_div_le_self (n b : nat) : 0 < b → ceil_div n b ≤ n.
Proof. intros Hb. apply ceil_div_le_iff; [done|nia]. Qed.

Lemma ceil_div_exact (n b : nat) :
  0 < b → n mod b = 0 → ceil_div n b * b = n.
Proof.
  intros Hb Hm.
  pose proof (Nat.div_mod_eq n b) as E. rewrite Hm in E.
  assert (ceil_div n b = n / b); [|lia].
  apply Nat.le_antisymm.
  - apply ceil_div_le_iff; lia.
  - destruct (decide (n / b ≤ ceil_div n b)) as [|Hn]; [done|exfalso].
    assert (ceil_div n b ≤ n / b - 1) as Hc by lia.
    apply ceil_div_le_iff in Hc; [|done]. nia.
Qed.

Lemma ceil_div_inexact (n b : nat) :
  0 < b → n mod b ≠ 0 → (ceil_div n b - 1) * b + n mod b = n.
Proof.
  intros Hb Hm.
  pose proof (Nat.div_mod_eq n b) as E.
  pose proof (Nat.mod_upper_bound n b ltac:(lia)) as Hlt.
  assert (ceil_div n b = S (n / b)); [|simpl; lia].
  apply Nat.le_antisymm.
  - apply ceil_div_le_iff; [done|]. simpl. lia.
  - destruct (decide (S (n / b) ≤ ceil_div n b)) as [|Hn]; [done|exfalso].
    assert (ceil_div n b ≤ n / b) as Hc by lia.
    apply ceil_div_le_iff in Hc; [|done]. nia.
Qed.

Lemma length_slice {A : Type} (xs : list A) (a b : nat) :
  length (slice xs a b) = (b - a) `min` (length xs - a).
Proof. unfold slice. by rewrite length_take, length_drop. Qed.

Lemma concat_slices {A : Type} (xs : list A) (b m : nat) :
  concat ((λ k, slice xs (k * b) (k * b + b)) <$> seq 0 m) = take (m * b) xs.
Proof.
  induction m as [|m IH]; [done|].
  rewrite seq_S, fmap_app, concat_app, IH. simpl.
  rewrite app_nil_r. unfold slice.
  replace (m * b + b - m * b) with b by lia.
  rewrite take_take_drop. f_equal. lia.
Qed.

(** ** The loops of the coordinator *)

Section CoordinatorFacts.
Context {A : Type}.
Variable insertMany : nat → list A → bool.
Variable settle_order : list nat → list nat.
Variable B P : nat.
Variable xs : list A.
Hypothesis B_pos : 0 < B.
Hypothesis P_pos : 0 < P.

Local Abbreviation nb := (totalBatches B xs).
Local Abbreviation inner := (inner_loop B xs).
Local Abbreviation outer := (outer_loop insertMany settle_order B P xs).
Local Abbreviation events := (wave_events insertMany settle_order).
Local Abbreviation result := (promise_result insertMany).
Local Abbreviation wfrom := (waves_from B P xs).

(** From start index [q * B] the inner loop pushes the batches
    [q + j], [q + j + 1], ... until [n] are pushed or the records are
    exhausted. *)
Lemma inner_loop_batches (q j n : nat) :
  inner (q * B) j n = batch_at B xs <$> seq (q + j) (n `min` (nb - (q + j))).
Proof using B_pos P_pos.
  revert j. induction n as [|n IH]; intros j; [done|].
  destruct (decide (length xs ≤ (q + j) * B)) as [Hlen|Hlen].
  - cbn [inner_loop]. rewrite decide_True by lia.
    apply ceil_div_le_iff in Hlen; [|done].
    unfold totalBatches.
    replace (ceil_div (length xs) B - (q + j)) with 0 by lia.
    by rewrite Nat.min_0_r.
  - assert (q + j < nb) as Hlt
      by (apply ceil_div_lt_iff; [done|lia]).
    replace (S n `min` (nb - (q + j)))
      with (S (n `min` (nb - (q + S j)))) by lia.
    cbn [inner_loop seq fmap list_fmap]. rewrite decide_False by lia.
    rewrite IH. f_equal; [|by rewrite Nat.add_succ_r].
    replace (q * B + j * B) with ((q + j) * B) by lia.
    unfold batch_at. by rewrite Nat.div_mul by lia.
Qed.

Lemma inner_loop_wave (w : nat) :
  inner (w * (B * P)) 0 P = wave B P xs w.
Proof using B_pos P_pos.
  replace (w * (B * P)) with (w * P * B) by lia.
  rewrite inner_loop_batches. unfold wave. by rewrite Nat.add_0_r.
Qed.

(** The loop condition, in terms of waves. *)
Lemma loop_condition (w : nat) :
  w * (B * P) < length xs ↔ w < ceil_div nb P.
Proof using B_pos P_pos.
  rewrite (ceil_div_lt_iff nb P w P_pos).
  unfold totalBatches. rewrite (ceil_div_lt_iff _ B (w * P) B_pos). lia.
Qed.

Lemma outer_loop_waves (fuel w : nat) (st : Coordinator A) :
  ceil_div nb P - w ≤ fuel →
  outer fuel (w * (B * P)) st
  = Some {| insertedCount :=
              insertedCount st
              + sum_list (result <$> concat (wfrom w (ceil_div nb P - w)));
            trace :=
              trace st
              ++ concat (events <$> wfrom w (ceil_div nb P - w)) |}.
Proof using B_pos P_pos.
  revert w st. induction fuel as [|fuel IH]; intros w st Hfuel.
  - pose proof (loop_condition w) as Hc.
    simpl. rewrite decide_False by lia.
    replace (ceil_div nb P - w) with 0 by lia.
    simpl. rewrite Nat.add_0_r, app_nil_r. by destruct st.
  - pose proof (loop_condition w) as Hc.
    cbn [outer_loop]. case_decide as Hi.
    + replace (w * (B * P) + B * P) with (S w * (B * P)) by lia.
      rewrite IH by lia. rewrite inner_loop_wave. cbn [insertedCount trace].
      replace (ceil_div nb P - w) with (S (ceil_div nb P - S w)) by lia.
      unfold waves_from. cbn [seq fmap list_fmap concat].
      rewrite fmap_app, sum_list_with_app, <- !app_assoc, Nat.add_assoc.
      done.
    + replace (ceil_div nb P - w) with 0 by lia.
      simpl. rewrite Nat.add_0_r, app_nil_r. by destruct st.
Qed.

(** The waves, one after the other, are the partition. *)
Lemma concat_waves_from (w n : nat) :
  concat (wfrom w n)
  = batch_at B xs <$> seq (w * P) ((n * P) `min` (nb - w * P)).
Proof using B_pos P_pos.
  revert w. induction n as [|n IH]; intros w; [done|].
  unfold waves_from in *. cbn [seq fmap list_fmap concat].
  rewrite IH. unfold wave. rewrite <- fmap_app. f_equal.
  destruct (decide (P ≤ nb - w * P)) as [Hfull|Hlast].
  - replace ((S n * P) `min` (nb - w * P))
      with (P + (n * P) `min` (nb - S w * P)) by lia.
    rewrite seq_app. do 3 f_equal; lia.
  - replace (nb - S w * P) with 0 by lia.
    rewrite Nat.min_0_r, app_nil_r. f_equal. lia.
Qed.

Lemma concat_waves :
  concat (wfrom 0 (ceil_div nb P)) = partition B xs.
Proof using B_pos P_pos.
  rewrite concat_waves_from. unfold partition. simpl. f_equal. f_equal.
  pose proof (proj1 (ceil_div_le_iff nb P (ceil_div nb P) P_pos)). lia.
Qed.

(** Enough fuel is what the handler supplies, and the loop ends. *)
Lemma outer_loop_total (st : Coordinator A) :
  outer (S (length xs)) 0 st
  = Some {| insertedCount :=
              insertedCount st + sum_list (result <$> partition B xs);
            trace :=
              trace st ++ concat (events <$> wfrom 0 (ceil_div nb P)) |}.
Proof using B_pos P_pos.
  pose proof (outer_loop_waves (S (length xs)) 0 st) as H.
  rewrite Nat.sub_0_r, concat_waves in H. apply H.
  pose proof (ceil_div_le_self nb P P_pos).
  pose proof (ceil_div_le_self (length xs) B B_pos).
  unfold totalBatches in *. lia.
Qed.
End CoordinatorFacts.

(** ** The partition *)

Section PartitionFacts.
Context {A : Type}.
Variable B : nat.
Variable xs : list A.
Hypothesis B_pos : 0 < B.

Local Abbreviation nb := (totalBatches B xs).

Lemma partition_length : length (partition B xs) = nb.
Proof using B_pos. unfold partition. by rewrite length_fmap, length_seq. Qed.

Lemma partition_lookup (k : nat) :
  k < nb → partition B xs !! k = Some (batch_at B xs k).
Proof using B_pos.
  intros Hk. unfold partition.
  by rewrite list_lookup_fmap, lookup_seq_lt.
Qed.

Lemma partition_numbers : fst <$> partition B xs = seq 1 nb.
Proof using B_pos.
  unfold partition. rewrite <- list_fmap_compose.
  rewrite <- (fmap_S_seq 0). apply list_fmap_ext.
  intros _ k _. simpl. lia.
Qed.

Lemma batch_at_length (k : nat) :
  length (batch_at B xs k).2 = B `min` (length xs - k * B).
Proof using B_pos.
  unfold batch_at. simpl. rewrite length_slice. f_equal. lia.
Qed.

(** Every batch but the last is full. *)
Lemma batch_full (k : nat) :
  S k < nb → length (batch_at B xs k).2 = B.
Proof using B_pos.
  intros Hk. rewrite batch_at_length.
  apply ceil_div_lt_iff in Hk; [|done]. lia.
Qed.

(** The last batch holds the remainder, or is full when there is none. *)
Lemma batch_last (k : nat) :
  S k = nb →
  length (batch_at B xs k).2
  = if decide (length xs `mod` B = 0) then B else length xs `mod` B.
Proof using B_pos.
  intros Hk. rewrite batch_at_length. unfold totalBatches in Hk.
  case_decide as Hm.
  - pose proof (ceil_div_exact (length xs) B B_pos Hm). nia.
  - pose proof (ceil_div_inexact (length xs) B B_pos Hm).
    pose proof (Nat.mod_upper_bound (length xs) B ltac:(lia)).
    replace (ceil_div (length xs) B - 1) with k in * by lia. lia.
Qed.

Lemma partition_concat : concat (snd <$> partition B xs) = xs.
Proof using B_pos.
  unfold partition. rewrite <- list_fmap_compose.
  change (snd ∘ batch_at B xs) with (λ k, slice xs (k * B) (k * B + B)).
  rewrite concat_slices. apply take_ge.
  by apply ceil_div_le_iff.
Qed.

Lemma records_in_partition : records_in (partition B xs) = length xs.
Proof using B_pos.
  rewrite <- partition_concat at 2.
  unfold records_in. generalize (partition B xs). intros ps.
  induction ps as [|p ps IH]; [done|].
  simpl. rewrite length_app. by f_equal.
Qed.
End PartitionFacts.

(** ** Counting and the events of a wave *)

Section WaveFacts.
Context {A : Type}.
Variable insertMany : nat → list A → bool.
Variable settle_order : list nat → list nat.

Local Abbreviation events := (wave_events insertMany settle_order).
Local Abbreviation result := (promise_result insertMany).

(** A rejected batch counts for nothing, a resolved one for its size. *)
Lemma results_and_failures (ps : list (nat * list A)) :
  sum_list (result <$> ps) + records_in (failed_batches insertMany ps)
  = records_in ps.
Proof.
  unfold records_in, failed_batches.
  induction ps as [|p ps IH]; [done|].
  rewrite filter_cons. cbn [fmap list_fmap sum_list_with].
  unfold promise_result at 1.
  destruct (insertMany p.1 p.2) eqn:E.
  - rewrite decide_False by done. unfold id in *. lia.
  - rewrite decide_True by done. cbn [fmap list_fmap sum_list_with].
    unfold id in *. lia.
Qed.

Lemma results_all_resolve (ps : list (nat * list A)) :
  (∀ p, p ∈ ps → insertMany p.1 p.2 = true) →
  sum_list (result <$> ps) = records_in ps.
Proof.
  intros Hall. unfold records_in.
  induction ps as [|p ps IH]; [done|].
  cbn [fmap list_fmap sum_list_with]. unfold promise_result at 1.
  rewrite Hall by left. f_equal. apply IH.
  intros q Hq. apply Hall. by right.
Qed.

Lemma results_all_reject (ps : list (nat * list A)) :
  (∀ p, p ∈ ps → insertMany p.1 p.2 = false) →
  sum_list (result <$> ps) = 0.
Proof.
  intros Hall. induction ps as [|p ps IH]; [done|].
  cbn [fmap list_fmap]. unfold promise_result at 1.
  rewrite Hall by left. simpl. apply IH.
  intros q Hq. apply Hall. by right.
Qed.

(** When nothing is counted, every batch that holds a record was
    rejected. *)
Lemma results_zero (ps : list (nat * list A)) :
  sum_list (result <$> ps) = 0 →
  ∀ p, p ∈ ps → p.2 ≠ [] → insertMany p.1 p.2 = false.
Proof.
  induction ps as [|q ps IH]; [by intros _ p ?%elem_of_nil|].
  cbn [fmap list_fmap sum_list_with]. unfold promise_result at 1, id.
  intros Hsum p Hp Hne. apply elem_of_cons in Hp as [->|Hp].
  - destruct (insertMany q.1 q.2); [|done].
    destruct (q.2); [done|]. simpl in Hsum. lia.
  - apply IH; [|done..].
    change (sum_list_with (λ x : nat, x) (result <$> ps) = 0).
    destruct (insertMany q.1 q.2); lia.
Qed.

Lemma dispatched_app (t1 t2 : list (Event A)) :
  dispatched (t1 ++ t2) = dispatched t1 ++ dispatched t2.
Proof. unfold dispatched. apply omap_app. Qed.

Lemma dispatched_dispatches (ps : list (nat * list A)) :
  dispatched ((λ p, Dispatch p.1 p.2) <$> ps) = ps.
Proof.
  induction ps as [|[n b] ps IH]; [done|].
  unfold dispatched in *. cbn [fmap list_fmap omap list_omap fst snd].
  by rewrite IH.
Qed.

Lemma dispatched_settles (ps : list (nat * list A)) (ns : list nat) :
  dispatched (ns ≫= settle_event insertMany ps) = [].
Proof.
  induction ns as [|n ns IH]; [done|].
  rewrite bind_cons, dispatched_app, IH, app_nil_r.
  unfold settle_event. by destruct (list_find _ ps) as [[??]|].
Qed.

Lemma dispatched_wave (ps : list (nat * list A)) :
  dispatched (events ps) = ps.
Proof.
  unfold wave_events.
  by rewrite dispatched_app, dispatched_dispatches, dispatched_settles, app_nil_r.
Qed.

(** Along the events of a list of waves, the writes dispatched are
    the batches of the waves, in order. *)
Lemma dispatched_waves (ws : list (list (nat * list A))) :
  dispatched (concat (events <$> ws)) = concat ws.
Proof.
  induction ws as [|w ws IH]; [done|].
  rewrite fmap_cons, !concat_cons.
  by rewrite dispatched_app, dispatched_wave, IH.
Qed.
End WaveFacts.

(** ** The bulk handler on a request that passes validation *)

Lemma batch_at_nonempty {A : Type} (B : nat) (xs : list A) (k : nat) :
  0 < B → k < totalBatches B xs → (batch_at B xs k).2 ≠ [].
Proof.
  intros HB Hk Hnil.
  apply (f_equal length) in Hnil. rewrite batch_at_length in Hnil by done.
  apply ceil_div_lt_iff in Hk; [|done]. simpl in Hnil. lia.
Qed.

Lemma totalBatches_pos {A : Type} (B : nat) (xs : list A) :
  0 < B → xs ≠ [] → 0 < totalBatches B xs.
Proof.
  intros HB Hxs. apply ceil_div_lt_iff; [done|].
  destruct xs; [done|]. simpl. lia.
Qed.

Lemma elem_of_concat {X : Type} (x : X) (ls : list (list X)) :
  x ∈ concat ls ↔ ∃ l, x ∈ l ∧ l ∈ ls.
Proof.
  induction ls as [|l0 ls IH]; simpl.
  - split; [by intros ?%elem_of_nil|by intros (? & _ & ?%elem_of_nil)].
  - rewrite elem_of_app, IH. split.
    + intros [H|(l & ? & ?)].
      * exists l0. split; [done|left].
      * exists l. split; [done|by right].
    + intros (l & Hx & Hl). apply elem_of_cons in Hl as [->|Hl]; [by left|].
      right. by exists l.
Qed.

Lemma elem_of_dispatched {A : Type} (t : list (Event A)) (n : nat) (b : list A) :
  Dispatch n b ∈ t ↔ (n, b) ∈ dispatched t.
Proof.
  unfold dispatched. rewrite list_elem_of_omap. split.
  - intros H. by exists (Dispatch n b).
  - intros ([m c|m r] & Hin & Heq); by simplify_eq.
Qed.

Lemma bulk_handler_accepts (B P : nat) (insertMany : nat → list JsObject → bool)
    (settle_order : list nat → list nat) (reqBody : JsObject)
    (entries : list JsValue) :
  0 < B → 0 < P →
  js_get reqBody "logs" = JArr entries → entries ≠ [] →
  let docs := stamp (js_get reqBody "projectId") <$> entries in
  bulk_handler_with B P insertMany settle_order reqBody
  = Some (mkResponse 201
            (CountBody (sum_list (promise_result insertMany <$> partition B docs))),
          concat (wave_events insertMany settle_order
                    <$> waves_from B P docs 0 (ceil_div (totalBatches B docs) P))).
Proof.
  intros HB HP Hlogs Hne docs. unfold bulk_handler_with.
  rewrite Hlogs. cbn [truthy isArray length_is_zero negb orb].
  destruct entries as [|entry entries]; [done|].
  cbn [length Nat.eqb]. fold docs. rewrite (outer_loop_total _ _ B P docs HB HP). done.
Qed.

Lemma bulk_handler_dispatched (B P : nat) (insertMany : nat → list JsObject → bool)
    (settle_order : list nat → list nat) (docs : list JsObject) :
  0 < B → 0 < P →
  dispatched (concat (wave_events insertMany settle_order
                        <$> waves_from B P docs 0 (ceil_div (totalBatches B docs) P)))
  = partition B docs.
Proof.
  intros HB HP. rewrite dispatched_waves. by apply concat_waves.
Qed.

(** ** Properties of bulk ingestion *)

(** C1.  A bulk request with N records that passes validation is answered
    201 with a count; every batch of the partition is dispatched whether
    or not earlier writes failed; the count is N minus the total size of
    the batches whose write rejected, each of those counting for zero;
    and the count is N when every write resolves. *)
Theorem bulk_count_partial_failure (B P : nat)
    (insertMany : nat → list JsObject → bool)
    (settle_order : list nat → list nat) (reqBody : JsObject)
    (entries : list JsValue) :
  0 < B → 0 < P →
  js_get reqBody "logs" = JArr entries → entries ≠ [] →
  ∃ count tr,
    bulk_handler_with B P insertMany settle_order reqBody
    = Some (mkResponse 201 (CountBody count), tr)
    ∧ dispatched tr = partition B (stamp (js_get reqBody "projectId") <$> entries)
    ∧ records_in (failed_batches insertMany (dispatched tr)) ≤ length entries
    ∧ count = length entries - records_in (failed_batches insertMany (dispatched tr))
    ∧ ((∀ p, p ∈ dispatched tr → insertMany p.1 p.2 = true) →
       count = length entries).
Proof.
  intros HB HP Hlogs Hne.
  eexists _, _. split; [by apply bulk_handler_accepts|].
  rewrite bulk_handler_dispatched by done.
  set (docs := stamp (js_get reqBody "projectId") <$> entries).
  pose proof (results_and_failures insertMany (partition B docs)) as Hsum.
  rewrite (records_in_partition B docs HB) in Hsum.
  unfold docs in Hsum at 3. rewrite length_fmap in Hsum.
  split_and!; [done|lia|lia|].
  intros Hall. rewrite results_all_resolve by done.
  rewrite (records_in_partition B docs HB). unfold docs. by rewrite length_fmap.
Qed.

(** C3.  The writes dispatched for N records are ceil(N/B) batches; each
    batch but the last has B records, the last has N mod B records, or B
    when B divides N; and the batches, concatenated in dispatch order,
    are the records being partitioned: the entries of the request in
    their order, each with its project stamp. *)
Theorem partition_shape (B P : nat)
    (insertMany : nat → list JsObject → bool)
    (settle_order : list nat → list nat) (reqBody : JsObject)
    (entries : list JsValue) :
  0 < B → 0 < P →
  js_get reqBody "logs" = JArr entries → entries ≠ [] →
  ∃ resp tr,
    bulk_handler_with B P insertMany settle_order reqBody = Some (resp, tr)
    ∧ let batches := snd <$> dispatched tr in
      length batches = ceil_div (length entries) B
      ∧ (∀ k b, batches !! k = Some b →
           length b
           = if decide (S k < length batches) then B
             else if decide (length entries `mod` B = 0) then B
                  else length entries `mod` B)
      ∧ concat batches = stamp (js_get reqBody "projectId") <$> entries.
Proof.
  intros HB HP Hlogs Hne.
  eexists _, _. split; [by apply bulk_handler_accepts|].
  rewrite bulk_handler_dispatched by done.
  set (docs := stamp (js_get reqBody "projectId") <$> entries).
  assert (length docs = length entries) as Hlen
    by (unfold docs; by rewrite length_fmap).
  cbn zeta. rewrite length_fmap, partition_length by done.
  split_and!.
  - unfold totalBatches. by rewrite Hlen.
  - intros k b Hk. rewrite list_lookup_fmap in Hk.
    destruct (partition B docs !! k) as [p|] eqn:Hp; [|done].
    assert (k < totalBatches B docs) as Hlt.
    { apply lookup_lt_Some in Hp. by rewrite partition_length in Hp. }
    rewrite partition_lookup in Hp by done.
    simpl in Hk. simplify_eq. rewrite <- Hlen.
    case_decide.
    + by apply batch_full.
    + apply batch_last; [done|lia].
  - by apply partition_concat.
Qed.

(** C9.  Every record of every batch handed to the store is an entry of
    the request stamped with the request's project identifier: its
    projectId is the one of the request, whatever the entry was, also
    when the entry carried a projectId of its own; and all the entries
    are handed over, in their order. *)
Theorem records_stamped (B P : nat)
    (insertMany : nat → list JsObject → bool)
    (settle_order : list nat → list nat) (reqBody : JsObject)
    (entries : list JsValue) :
  0 < B → 0 < P →
  js_get reqBody "logs" = JArr entries → entries ≠ [] →
  ∃ resp tr,
    bulk_handler_with B P insertMany settle_order reqBody = Some (resp, tr)
    ∧ (∀ n batch doc,
         Dispatch n batch ∈ tr → doc ∈ batch →
         doc !! "projectId" = Some (js_get reqBody "projectId")
         ∧ ∃ entry, entry ∈ entries
                    ∧ doc = <["projectId" := js_get reqBody "projectId"]> (spread entry))
    ∧ concat (snd <$> dispatched tr)
      = (λ entry, <["projectId" := js_get reqBody "projectId"]> (spread entry))
          <$> entries.
Proof.
  intros HB HP Hlogs Hne.
  eexists _, _. split; [by apply bulk_handler_accepts|].
  set (pid := js_get reqBody "projectId").
  assert (concat (snd <$> partition B (stamp pid <$> entries))
          = stamp pid <$> entries) as Hcat by by apply partition_concat.
  split; [|by rewrite bulk_handler_dispatched].
  intros n batch doc Hd Hdoc.
  apply elem_of_dispatched in Hd. rewrite bulk_handler_dispatched in Hd by done.
  assert (doc ∈ stamp pid <$> entries) as Hin.
  { rewrite <- Hcat. apply elem_of_concat. exists batch. split; [done|].
    apply list_elem_of_fmap. by exists (n, batch). }
  apply list_elem_of_fmap in Hin as (entry & -> & Hentry).
  split; [apply lookup_insert_eq|]. by exists entry.
Qed.

Lemma BATCH_SIZE_pos : 0 < BATCH_SIZE.
Proof. unfold BATCH_SIZE. lia. Qed.

Lemma PARALLEL_BATCHES_pos : 0 < PARALLEL_BATCHES.
Proof. unfold PARALLEL_BATCHES. lia. Qed.

Lemma partition_nonempty {A : Type} (B : nat) (xs : list A) :
  0 < B → xs ≠ [] → partition B xs ≠ [].
Proof.
  intros HB Hxs Hnil. apply (f_equal length) in Hnil.
  rewrite partition_length in Hnil by done.
  pose proof (totalBatches_pos B xs HB Hxs). simpl in Hnil. lia.
Qed.

(** C7.  A bulk request whose logs field is missing, is not an array, or
    is the empty array is answered 400 "No logs provided" and the store
    sees no event at all; a request whose logs field is a non-empty array
    is not rejected: it is answered 201 and batches are dispatched. *)
Theorem bulk_validation (insertMany : nat → list JsObject → bool)
    (settle_order : list nat → list nat) (reqBody : JsObject) :
  (reqBody !! "logs" = None
   ∨ isArray (js_get reqBody "logs") = false
   ∨ js_get reqBody "logs" = JArr [] →
   bulk_handler insertMany settle_order reqBody
   = Some (mkResponse 400 (ErrorBody "No logs provided" None), []))
  ∧ (∀ entries,
       js_get reqBody "logs" = JArr entries → entries ≠ [] →
       ∃ count tr,
         bulk_handler insertMany settle_order reqBody
         = Some (mkResponse 201 (CountBody count), tr)
         ∧ dispatched tr ≠ []).
Proof.
  split.
  - unfold bulk_handler, bulk_handler_with.
    intros [Hmissing|[Hnot|Hempty]].
    + unfold js_get. by rewrite Hmissing.
    + by destruct (js_get reqBody "logs") as [| |[]|z|s|xs|m];
        try discriminate; simpl; try destruct (_ =? _)%Z;
        try destruct (String.eqb _ _).
    + by rewrite Hempty.
  - intros entries Hlogs Hne. unfold bulk_handler.
    eexists _, _. split.
    + by apply bulk_handler_accepts;
        [apply BATCH_SIZE_pos|apply PARALLEL_BATCHES_pos|..].
    + rewrite bulk_handler_dispatched
        by first [apply BATCH_SIZE_pos|apply PARALLEL_BATCHES_pos].
      apply partition_nonempty; [apply BATCH_SIZE_pos|].
      intros Hnil. apply fmap_nil_inv in Hnil. done.
Qed.

Lemma filter_all {X : Type} (Q : X → Prop) `{!∀ x, Decision (Q x)} (l : list X) :
  (∀ x, x ∈ l → Q x) → filter Q l = l.
Proof.
  induction l as [|x l IH]; intros HQ; [done|].
  rewrite filter_cons_True by (apply HQ; left).
  f_equal. apply IH. intros y Hy. apply HQ. by right.
Qed.

Lemma filter_none {X : Type} (Q : X → Prop) `{!∀ x, Decision (Q x)} (l : list X) :
  (∀ x, x ∈ l → ¬ Q x) → filter Q l = [].
Proof.
  induction l as [|x l IH]; intros HQ; [done|].
  rewrite filter_cons_False by (apply HQ; left).
  apply IH. intros y Hy. apply HQ. by right.
Qed.


(** ** Waves: what is in flight along the trace *)

Section InFlight.
Context {A : Type}.
Variable insertMany : nat → list A → bool.
Variable settle_order : list nat → list nat.
Variable P : nat.

Local Abbreviation events := (wave_events insertMany settle_order).
Local Abbreviation settle := (settle_event insertMany).

Lemma pending_from_app (acc : list nat) (t1 t2 : list (Event A)) :
  pending_from acc (t1 ++ t2) = pending_from (pending_from acc t1) t2.
Proof.
  revert acc. induction t1 as [|[n b|n r] t1 IH]; intros acc; simpl; auto.
Qed.

Lemma pending_dispatches (acc : list nat) (ps : list (nat * list A)) :
  pending_from acc ((λ p, Dispatch p.1 p.2) <$> ps) = acc ++ (fst <$> ps).
Proof.
  revert acc. induction ps as [|p ps IH]; intros acc; simpl.
  - by rewrite app_nil_r.
  - rewrite IH. by rewrite <- app_assoc.
Qed.

Lemma settle_found (ps : list (nat * list A)) (n : nat) :
  n ∈ fst <$> ps → ∃ r, settle ps n = [Settle n r].
Proof.
  intros (p & -> & Hp)%list_elem_of_fmap. unfold settle_event.
  destruct (list_find (λ q, q.1 = p.1) ps) as [[i q]|] eqn:Hfind.
  - by eexists.
  - apply list_find_None in Hfind.
    rewrite Forall_forall in Hfind. by destruct (Hfind p Hp).
Qed.

Lemma pending_settles (ps : list (nat * list A)) (ns acc : list nat) :
  (∀ n, n ∈ ns → n ∈ fst <$> ps) →
  pending_from acc (ns ≫= settle ps) = filter (λ m, m ∉ ns) acc.
Proof.
  revert acc. induction ns as [|n ns IH]; intros acc Hin.
  - simpl. symmetry. apply filter_all. intros m _. apply not_elem_of_nil.
  - rewrite bind_cons.
    destruct (settle_found ps n) as [r ->]; [apply Hin; left|].
    simpl. rewrite IH by (intros m Hm; apply Hin; by right).
    rewrite list_filter_filter. apply list_filter_iff.
    intros m. rewrite not_elem_of_cons. tauto.
Qed.

(** Once [await Promise.all] returns, nothing of the wave is in flight. *)
Lemma pending_wave (ps : list (nat * list A)) :
  (∀ ns, settle_order ns ≡ₚ ns) →
  pending_from [] (events ps) = [].
Proof.
  intros Hperm. unfold wave_events.
  rewrite pending_from_app, pending_dispatches, app_nil_l.
  rewrite pending_settles.
  - apply filter_none. intros m Hm Hnot. apply Hnot. by rewrite Hperm.
  - intros n Hn. by rewrite Hperm in Hn.
Qed.

Lemma pending_waves (ws : list (list (nat * list A))) :
  (∀ ns, settle_order ns ≡ₚ ns) →
  pending_from [] (concat (events <$> ws)) = [].
Proof.
  intros Hperm. induction ws as [|w ws IH]; [done|].
  rewrite fmap_cons, concat_cons, pending_from_app.
  by rewrite pending_wave.
Qed.

Lemma wave_safe_length (acc : list nat) (t : list (Event A)) :
  wave_safe P acc t → length acc ≤ P.
Proof. destruct t; by intros [? _]. Qed.

Lemma wave_safe_app (acc : list nat) (t1 t2 : list (Event A)) :
  wave_safe P acc t1 →
  wave_safe P (pending_from acc t1) t2 →
  wave_safe P acc (t1 ++ t2).
Proof.
  revert acc. induction t1 as [|[n b|n r] t1 IH]; intros acc H1 H2.
  - done.
  - destruct H1 as (Hlen & Hsame & Hrest). simpl. split_and!; auto.
  - destruct H1 as (Hlen & Hrest). simpl. split_and!; auto.
Qed.

Lemma wave_safe_dispatches (k : nat) (acc : list nat) (ps : list (nat * list A)) :
  length acc + length ps ≤ P →
  (∀ m, m ∈ acc ++ (fst <$> ps) → wave_of P m = k) →
  wave_safe P acc ((λ p, Dispatch p.1 p.2) <$> ps).
Proof.
  revert acc. induction ps as [|p ps IH]; intros acc Hlen Hk.
  - simpl in *. split; [lia|done].
  - simpl in *. split_and!; [lia| |].
    + intros m Hm. rewrite (Hk m), (Hk p.1); [done|..].
      * apply elem_of_app. right. left.
      * apply elem_of_app. by left.
    + apply IH.
      * rewrite length_app. simpl. lia.
      * intros m Hm. apply Hk. by rewrite <- app_assoc in Hm.
Qed.

Lemma wave_safe_settles (acc : list nat) (ps : list (nat * list A)) (ns : list nat) :
  length acc ≤ P → wave_safe P acc (ns ≫= settle ps).
Proof.
  revert acc. induction ns as [|n ns IH]; intros acc Hlen; [done|].
  rewrite bind_cons. unfold settle_event at 1.
  destruct (list_find _ ps) as [[i q]|]; [|by apply IH].
  simpl. split; [done|]. apply IH.
  pose proof (length_filter (λ m, m ≠ n) acc). lia.
Qed.

Lemma wave_safe_wave (k : nat) (ps : list (nat * list A)) :
  length ps ≤ P →
  (∀ m, m ∈ fst <$> ps → wave_of P m = k) →
  wave_safe P [] (events ps).
Proof.
  intros Hlen Hk. unfold wave_events. apply wave_safe_app.
  - by apply (wave_safe_dispatches k).
  - rewrite pending_dispatches. apply wave_safe_settles.
    by rewrite app_nil_l, length_fmap.
Qed.

Lemma wave_safe_waves (ws : list (list (nat * list A))) :
  (∀ ns, settle_order ns ≡ₚ ns) →
  Forall (λ ps, length ps ≤ P
                ∧ ∃ k, ∀ m, m ∈ fst <$> ps → wave_of P m = k) ws →
  wave_safe P [] (concat (events <$> ws)).
Proof.
  intros Hperm Hws. induction Hws as [|ps ws (Hlen & k & Hk) _ IH].
  - simpl. split; [lia|done].
  - rewrite fmap_cons, concat_cons. apply wave_safe_app.
    + by apply (wave_safe_wave k).
    + by rewrite pending_wave.
Qed.

(** What [wave_safe] says of every prefix of a trace. *)
Lemma wave_safe_prefix (acc : list nat) (t t' : list (Event A)) :
  wave_safe P acc t → t' `prefix_of` t → wave_safe P acc t'.
Proof.
  revert acc t. induction t' as [|e t' IH]; intros acc t Hsafe Hpre.
  - split; [by eapply wave_safe_length|done].
  - destruct t as [|e0 t]; [by apply prefix_nil_not in Hpre|].
    pose proof (prefix_cons_inv_1 _ _ _ _ Hpre) as <-.
    apply prefix_cons_inv_2 in Hpre.
    destruct e as [n b|n r].
    + destruct Hsafe as (Hlen & Hsame & Hrest). simpl. split_and!; eauto.
    + destruct Hsafe as (Hlen & Hrest). simpl. split_and!; eauto.
Qed.

Lemma wave_safe_pending (acc : list nat) (t : list (Event A)) :
  wave_safe P acc t → length (pending_from acc t) ≤ P.
Proof.
  revert acc. induction t as [|[n b|n r] t IH]; intros acc Hsafe.
  - by destruct Hsafe.
  - destruct Hsafe as (_ & _ & Hrest). simpl. auto.
  - destruct Hsafe as (_ & Hrest). simpl. auto.
Qed.

Lemma wave_safe_dispatch (acc : list nat) (t : list (Event A))
    (n : nat) (b : list A) :
  wave_safe P acc (t ++ [Dispatch n b]) →
  ∀ m, m ∈ pending_from acc t → wave_of P m = wave_of P n.
Proof.
  revert acc. induction t as [|[n' b'|n' r] t IH]; intros acc Hsafe.
  - destruct Hsafe as (_ & Hsame & _). apply Hsame.
  - destruct Hsafe as (_ & _ & Hrest). simpl. by apply IH.
  - destruct Hsafe as (_ & Hrest). simpl. by apply IH.
Qed.
End InFlight.

(** The waves of a request are well formed: at most [P] batches each,
    all of one wave. *)
Lemma wave_of_batch (P w k : nat) :
  w * P ≤ k < w * P + P → wave_of P (k + 1) = w.
Proof.
  intros Hk. unfold wave_of. replace (k + 1 - 1) with k by lia.
  symmetry. apply Nat.div_unique with (k - w * P); lia.
Qed.

Lemma waves_from_well_formed {A : Type} (B P : nat) (xs : list A) (w n : nat) :
  Forall (λ ps, length ps ≤ P
                ∧ ∃ k, ∀ m, m ∈ fst <$> ps → wave_of P m = k)
    (waves_from B P xs w n).
Proof.
  unfold waves_from. apply Forall_fmap, Forall_forall. intros v _.
  unfold wave. split.
  - rewrite length_fmap, length_seq. lia.
  - exists v. intros m Hm. rewrite <- list_fmap_compose in Hm.
    apply list_elem_of_fmap in Hm as (k & -> & Hk).
    apply elem_of_seq in Hk. simpl. apply wave_of_batch. lia.
Qed.

(** C4.  Batches are written in waves.  The writes are dispatched in
    partition order (batch numbers 1, 2, ...), wave k being the batches
    k * P + 1 to k * P + P; at every point of the trace at most P writes
    are in flight; whenever a write is dispatched, every write still in
    flight is of the same wave, so that all the writes of a wave have
    settled before the first write of the next wave is dispatched; and
    nothing is in flight when the handler answers.  The order in which
    the writes of one wave settle is arbitrary. *)
Theorem waves_bounded (B P : nat)
    (insertMany : nat → list JsObject → bool)
    (settle_order : list nat → list nat) (reqBody : JsObject)
    (entries : list JsValue) :
  0 < B → 0 < P →
  (∀ ns, settle_order ns ≡ₚ ns) →
  js_get reqBody "logs" = JArr entries → entries ≠ [] →
  ∃ resp tr,
    bulk_handler_with B P insertMany settle_order reqBody = Some (resp, tr)
    ∧ fst <$> dispatched tr = seq 1 (ceil_div (length entries) B)
    ∧ (∀ t, t `prefix_of` tr → length (in_flight t) ≤ P)
    ∧ (∀ t n b,
         t ++ [Dispatch n b] `prefix_of` tr →
         ∀ m, m ∈ in_flight t → wave_of P m = wave_of P n)
    ∧ in_flight tr = [].
Proof.
  intros HB HP Hperm Hlogs Hne.
  eexists _, _. split; [by apply bulk_handler_accepts|].
  set (docs := stamp (js_get reqBody "projectId") <$> entries).
  set (ws := waves_from B P docs 0 (ceil_div (totalBatches B docs) P)).
  assert (wave_safe P [] (concat (wave_events insertMany settle_order <$> ws)))
    as Hsafe.
  { apply wave_safe_waves; [done|]. apply waves_from_well_formed. }
  split_and!.
  - unfold ws. rewrite bulk_handler_dispatched, partition_numbers by done.
    unfold totalBatches, docs. by rewrite length_fmap.
  - intros t Hpre. apply wave_safe_pending. by eapply wave_safe_prefix.
  - intros t n b Hpre. eapply wave_safe_dispatch. by eapply wave_safe_prefix.
  - by apply pending_waves.
Qed.

(** ** The theorems on sample requests *)

Lemma reverse_permutes (ns : list nat) : reverse ns ≡ₚ ns.
Proof. apply reverse_Permutation. Qed.

Lemma bulk_count_partial_failure_witness :
  ∃ count tr,
    bulk_handler_with BATCH_SIZE PARALLEL_BATCHES second_fails reverse
      (sample_request 12000)
    = Some (mkResponse 201 (CountBody count), tr)
    ∧ dispatched tr
      = partition BATCH_SIZE
          (stamp (js_get (sample_request 12000) "projectId")
             <$> replicate 12000 sample_entry)
    ∧ records_in (failed_batches second_fails (dispatched tr))
      ≤ length (replicate 12000 sample_entry)
    ∧ count
      = length (replicate 12000 sample_entry)
        - records_in (failed_batches second_fails (dispatched tr))
    ∧ ((∀ p, p ∈ dispatched tr → second_fails p.1 p.2 = true) →
       count = length (replicate 12000 sample_entry)).
Proof.
  apply (bulk_count_partial_failure BATCH_SIZE PARALLEL_BATCHES
           second_fails reverse
           (sample_request 12000) (replicate 12000 sample_entry));
    [apply BATCH_SIZE_pos|apply PARALLEL_BATCHES_pos|reflexivity|discriminate].
Defined.

Lemma partition_shape_witness :
  ∃ resp tr,
    bulk_handler_with BATCH_SIZE PARALLEL_BATCHES second_fails reverse
      (sample_request 12000)
    = Some (resp, tr)
    ∧ let batches := snd <$> dispatched tr in
      length batches = ceil_div (length (replicate 12000 sample_entry)) BATCH_SIZE
      ∧ (∀ k b, batches !! k = Some b →
           length b
           = if decide (S k < length batches) then BATCH_SIZE
             else if decide (length (replicate 12000 sample_entry)
                               `mod` BATCH_SIZE = 0)
                  then BATCH_SIZE
                  else length (replicate 12000 sample_entry) `mod` BATCH_SIZE)
      ∧ concat batches
        = stamp (js_get (sample_request 12000) "projectId")
            <$> replicate 12000 sample_entry.
Proof.
  apply (partition_shape BATCH_SIZE PARALLEL_BATCHES second_fails reverse
           (sample_request 12000) (replicate 12000 sample_entry));
    [apply BATCH_SIZE_pos|apply PARALLEL_BATCHES_pos|reflexivity|discriminate].
Defined.

Lemma waves_bounded_witness :
  ∃ resp tr,
    bulk_handler_with 2 2 second_fails reverse (sample_request 7)
    = Some (resp, tr)
    ∧ fst <$> dispatched tr = seq 1 (ceil_div (length (replicate 7 sample_entry)) 2)
    ∧ (∀ t, t `prefix_of` tr → length (in_flight t) ≤ 2)
    ∧ (∀ t n b,
         t ++ [Dispatch n b] `prefix_of` tr →
         ∀ m, m ∈ in_flight t → wave_of 2 m = wave_of 2 n)
    ∧ in_flight tr = [].
Proof.
  apply (waves_bounded 2 2 second_fails reverse
           (sample_request 7) (replicate 7 sample_entry));
    [lia|lia|apply reverse_permutes|reflexivity|discriminate].
Defined.

Lemma records_stamped_witness :
  ∃ resp tr,
    bulk_handler_with BATCH_SIZE PARALLEL_BATCHES second_fails reverse
      (sample_request 7)
    = Some (resp, tr)
    ∧ (∀ n batch doc,
         Dispatch n batch ∈ tr → doc ∈ batch →
         doc !! "projectId" = Some (js_get (sample_request 7) "projectId")
         ∧ ∃ entry,
             entry ∈ replicate 7 sample_entry
             ∧ doc = <["projectId" := js_get (sample_request 7) "projectId"]>
                       (spread entry))
    ∧ concat (snd <$> dispatched tr)
      = (λ entry, <["projectId" := js_get (sample_request 7) "projectId"]>
                    (spread entry))
          <$> replicate 7 sample_entry.
Proof.
  apply (records_stamped BATCH_SIZE PARALLEL_BATCHES second_fails reverse
           (sample_request 7) (replicate 7 sample_entry));
    [apply BATCH_SIZE_pos|apply PARALLEL_BATCHES_pos|reflexivity|discriminate].
Defined.

Lemma bulk_validation_witness :
  bulk_handler second_fails reverse request_without_logs
  = Some (mkResponse 400 (ErrorBody "No logs provided" None), [])
  ∧ ∃ count tr,
      bulk_handler second_fails reverse (sample_request 7)
      = Some (mkResponse 201 (CountBody count), tr)
      ∧ dispatched tr ≠ [].
Proof.
  split.
  - apply (proj1 (bulk_validation second_fails reverse request_without_logs)).
    left. reflexivity.
  - apply (proj2 (bulk_validation second_fails reverse (sample_request 7))
             (replicate 7 sample_entry));
      [reflexivity|discriminate].
Defined.



(** The example of the specification: 12,000 records make the batches
    (5000, 5000, 2000), all dispatched in one wave; with the write of
    batch 2 rejected the answer is 201 with count 7000. *)
Example ingest_12000 :
  (λ r : Response * list (Event JsObject),
     (r.1, (λ p, (p.1, length p.2)) <$> dispatched r.2))
    <$> bulk_handler second_fails reverse (sample_request 12000)
  = Some (mkResponse 201 (CountBody 7000), [(1, 5000); (2, 5000); (3, 2000)]).
Proof. vm_compute. reflexivity. Qed.

(** The count is what the handler adds for each resolved promise, the
    size of the batch, whatever the store did with the documents. *)
Example resolved_write_counts_batch_length :
  fst <$> bulk_handler (λ _ _, true) reverse (request_without_project 3)
  = Some (mkResponse 201 (CountBody 3)).
Proof. vm_compute. reflexivity. Qed.

(** ** The query handler *)

(** What a successful answer of [GET /api/logs/:projectId] is made of. *)
Lemma get_logs_success (st : Store) (pid : string) (q : QueryParams)
    (logs : list LogDoc) (total : nat) (hasMore : bool) :
  get_logs_handler st pid q = mkResponse 200 (LogsBody logs total hasMore) →
  ∃ ms skip limit,
    connected st = true
    ∧ compile_or (build_filter pid q) = Some ms
    ∧ read_skip st (page_skip q) = Resolved skip
    ∧ read_limit st (page_limit q) = Resolved limit
    ∧ total = length (filter (λ d, doc_matches (build_filter pid q) ms d) (Log st))
    ∧ logs = apply_limit limit
               (drop skip
                  (merge_sort
                     (sorts_before PTimestamp false
                        (tie_rank st (page_skip q) (page_limit q)))
                     (filter (λ d, doc_matches (build_filter pid q) ms d) (Log st))))
    ∧ hasMore = js_gt (Num (Z.of_nat total))
                  (js_add (page_skip q) (Num (Z.of_nat (length logs)))).
Proof.
  unfold get_logs_handler, countDocuments, find_sort_skip_limit, matching.
  destruct (connected st); [|done].
  destruct (compile_or (build_filter pid q)) as [ms|]; [|done].
  destruct (read_skip st (page_skip q)) as [skip|]; [|done].
  destruct (read_limit st (page_limit q)) as [limit|]; [|done].
  intros [= <- <- <-]. by exists ms, skip, limit.
Qed.

(** A connected store answers a query whose patterns compile and whose
    window it can read. *)
Lemma get_logs_answers (st : Store) (pid : string) (q : QueryParams)
    (ms : option (list Matcher)) (skip : nat) (limit : option nat) :
  connected st = true →
  compile_or (build_filter pid q) = Some ms →
  read_skip st (page_skip q) = Resolved skip →
  read_limit st (page_limit q) = Resolved limit →
  ∃ logs total hasMore,
    get_logs_handler st pid q = mkResponse 200 (LogsBody logs total hasMore).
Proof.
  intros Hc Hms Hs Hl.
  unfold get_logs_handler, countDocuments, find_sort_skip_limit, matching.
  rewrite Hc, Hms, Hs, Hl. by eexists _, _, _.
Qed.

(** C2.  In every successful answer to a query, whatever the filters and
    the window, the total is the number of records of the store that
    match the filter, and hasMore is the comparison
    [total > skip + logs.length] on the skip parsed from the request (0
    when none is given): hasMore is true exactly when the total exceeds
    skip plus the number of records returned.  (A skip that does not
    parse to a number makes the comparison, and hasMore, false.) *)
Theorem hasMore_iff (st : Store) (pid : string) (q : QueryParams)
    (logs : list LogDoc) (total : nat) (hasMore : bool) :
  get_logs_handler st pid q = mkResponse 200 (LogsBody logs total hasMore) →
  countDocuments (build_filter pid q) st = Resolved total
  ∧ hasMore = js_gt (Num (Z.of_nat total))
                (js_add (page_skip q) (Num (Z.of_nat (length logs))))
  ∧ (∀ skip : Z,
       page_skip q = Num skip →
       hasMore = true ↔ (Z.of_nat total > skip + Z.of_nat (length logs))%Z)
  ∧ (page_skip q = NaN → hasMore = false).
Proof.
  intros H.
  destruct (get_logs_success _ _ _ _ _ _ H)
    as (ms & skip & limit & Hc & Hms & Hs & Hl & Ht & Hlogs & Hmore).
  split_and!.
  - unfold countDocuments, matching. by rewrite Hc, Hms, Ht.
  - done.
  - intros z Hz. rewrite Hmore, Hz. simpl. rewrite Z.ltb_lt. lia.
  - intros Hnan. by rewrite Hmore, Hnan.
Qed.

(** ** Level and time filters *)

Lemma given_Some (p : option string) :
  given p = true → ∃ s, p = Some s ∧ s ≠ "".
Proof.
  destruct p as [s|]; [|done]. simpl. intros Hs. exists s. split; [done|].
  intros ->. done.
Qed.

Lemma level_holds_iff (pid : string) (q : QueryParams) (d : LogDoc) :
  level_holds (build_filter pid q) d = true ↔ in_level_set q d.
Proof.
  unfold level_holds, in_level_set, build_filter. simpl.
  destruct (given (q_level q)); [|by split].
  destruct (level d) as [l|].
  - rewrite bool_decide_eq_true. split.
    + intros Hin _. by exists l.
    + intros Hin. destruct (Hin eq_refl) as (l' & [= <-] & Hl). done.
  - split; [done|]. intros Hin. by destruct (Hin eq_refl) as (l' & ? & _).
Qed.

Lemma timestamp_holds_iff (pid : string) (q : QueryParams) (d : LogDoc) :
  timestamp_holds (build_filter pid q) d = true
  ↔ not_before_start q d ∧ not_after_end q d.
Proof.
  unfold timestamp_holds, not_before_start, not_after_end, build_filter.
  simpl.
  destruct (given (q_start q)) eqn:Hs, (given (q_end q)) eqn:He; simpl;
    try (apply given_Some in Hs as (s & -> & _));
    try (apply given_Some in He as (e & -> & _));
    destruct (timestamp d) as [t|]; simpl;
    rewrite ?andb_true_r, ?andb_true_iff; naive_solver.
Qed.

(** The filter of a query accepts exactly the records of the project
    that meet each condition the request gives. *)
Lemma doc_matches_iff (pid : string) (q : QueryParams)
    (ms : option (list Matcher)) (d : LogDoc) :
  doc_matches (build_filter pid q) ms d = true
  ↔ projectId d = pid ∧ in_level_set q d
    ∧ not_before_start q d ∧ not_after_end q d
    ∧ or_holds ms d = true.
Proof.
  unfold doc_matches. rewrite !andb_true_iff.
  rewrite level_holds_iff, timestamp_holds_iff, String.eqb_eq.
  simpl. tauto.
Qed.

Lemma elem_of_window (R : relation LogDoc) `{!∀ x y, Decision (R x y)}
    (limit : option nat) (skip : nat) (ds : list LogDoc) (d : LogDoc) :
  d ∈ apply_limit limit (drop skip (merge_sort R ds)) → d ∈ ds.
Proof.
  intros Hd. rewrite <- (merge_sort_Permutation R ds).
  apply (subseteq_drop skip).
  destruct limit as [n|]; [by apply (subseteq_take n)|done].
Qed.

(** C5.  Every record returned by a query belongs to the project and,
    when a level filter is given, has a level among the comma-separated
    values; when a start is given, has a timestamp with
    start <= timestamp; when an end is given, has a timestamp with
    timestamp <= end, the order being that of strings.  Both bounds are
    inclusive and a bound that is not given does not constrain: the
    filter accepts exactly the records that meet the conditions given. *)
Theorem level_and_window_filter (st : Store) (pid : string) (q : QueryParams)
    (logs : list LogDoc) (total : nat) (hasMore : bool) :
  get_logs_handler st pid q = mkResponse 200 (LogsBody logs total hasMore) →
  (∀ d, d ∈ logs →
     d ∈ Log st ∧ projectId d = pid
     ∧ in_level_set q d ∧ not_before_start q d ∧ not_after_end q d)
  ∧ ∃ ms,
      compile_or (build_filter pid q) = Some ms
      ∧ total = length (filter (λ d, doc_matches (build_filter pid q) ms d) (Log st))
      ∧ ∀ d, doc_matches (build_filter pid q) ms d = true
             ↔ projectId d = pid ∧ in_level_set q d
               ∧ not_before_start q d ∧ not_after_end q d
               ∧ or_holds ms d = true.
Proof.
  intros H.
  destruct (get_logs_success _ _ _ _ _ _ H)
    as (ms & skip & limit & Hc & Hms & Hs & Hl & Ht & Hlogs & Hmore).
  split.
  - intros d Hd. rewrite Hlogs in Hd. apply elem_of_window in Hd.
    apply list_elem_of_filter in Hd as [Hm Hin].
    apply Is_true_true, doc_matches_iff in Hm. tauto.
  - exists ms. split_and!; [done|done|]. intros d. apply doc_matches_iff.
Qed.

(** ** The search clause *)

Lemma not_meta (c : ascii) : c ∉ metacharacters → is_meta c = false.
Proof. intros H. unfold is_meta. by apply bool_decide_eq_false. Qed.

(** A term without metacharacters compiles to itself, character by
    character. *)
Lemma compile_plain (term : string) :
  plain_term term →
  compile_regex term = Some (Lit <$> list_ascii_of_string term).
Proof.
  unfold plain_term. induction term as [|c term IH]; [done|].
  simpl. intros Hplain. apply Forall_cons in Hplain as [Hc Hterm].
  destruct (Ascii.eqb_spec c ".") as [->|_].
  { exfalso. apply Hc. apply (bool_decide_unpack _). vm_compute. exact I. }
  destruct (Ascii.eqb_spec c "\") as [->|_].
  { exfalso. apply Hc. apply (bool_decide_unpack _). vm_compute. exact I. }
  rewrite not_meta by done. by rewrite IH.
Qed.

Lemma lower_cons (c : ascii) (s : string) :
  lower (String c s) = to_lower c :: lower s.
Proof. done. Qed.

(** Matching at the start of the subject: the lowered term is a prefix
    of the lowered subject. *)
Lemma match_here_plain (cs : list ascii) (s : string) :
  match_here true (Lit <$> cs) s = true
  ↔ ∃ post, lower s = (to_lower <$> cs) ++ post.
Proof.
  revert s. induction cs as [|c cs IH]; intros s.
  - simpl. split; [|done]. intros _. by exists (lower s).
  - destruct s as [|c' s].
    + simpl. split; [done|]. by intros (post & ?).
    + cbn [fmap list_fmap match_here atom_matches].
      rewrite andb_true_iff, IH, lower_cons, Ascii.eqb_eq. split.
      * intros (Hc & post & Hs). exists post. rewrite Hs, Hc. done.
      * intros (post & Hs). injection Hs as Hc Hs. split; [done|by exists post].
Qed.

(** Searching: the lowered term occurs somewhere in the lowered subject. *)
Lemma regex_search_plain (cs : list ascii) (s : string) :
  regex_search true (Lit <$> cs) s = true
  ↔ ∃ pre post, lower s = pre ++ (to_lower <$> cs) ++ post.
Proof.
  induction s as [|c s IH].
  - cbn [regex_search]. rewrite orb_false_r, match_here_plain. split.
    + intros (post & Hs). by exists [], post.
    + intros (pre & post & Hs). destruct pre; [by exists post|done].
  - cbn [regex_search]. rewrite orb_true_iff, match_here_plain, IH, lower_cons.
    split.
    + intros [(post & Hs)|(pre & post & Hs)].
      * by exists [], post.
      * exists (to_lower c :: pre), post. by rewrite Hs.
    + intros (pre & post & Hs). destruct pre as [|x pre].
      * left. by exists post.
      * right. injection Hs as _ Hs. by exists pre, post.
Qed.

Lemma matcher_holds_plain (fld : TextField) (term : string) (d : LogDoc) :
  matcher_holds (mkMatcher fld (Lit <$> list_ascii_of_string term) true) d = true
  ↔ occurs_in term (text_field fld d).
Proof.
  unfold matcher_holds, occurs_in, ci_substring. simpl.
  destruct (text_field fld d) as [s|].
  - rewrite regex_search_plain. split.
    + intros H. by exists s.
    + by intros (s' & [= <-] & H).
  - split; [done|]. by intros (s' & ? & _).
Qed.

(** C6, as amended.  For a query whose search term is not empty and holds
    none of the metacharacters of the pattern language, the patterns
    compile, and a record matches the filter exactly when it meets the
    other conditions of the query and the term occurs, letter case
    ignored, in its message, its raw line or its component. *)
Theorem search_plain_term (pid : string) (q : QueryParams) (term : string)
    (d : LogDoc) :
  q_search q = Some term → term ≠ "" → plain_term term →
  ∃ ms,
    compile_or (build_filter pid q) = Some ms
    ∧ (or_holds ms d = true
       ↔ occurs_in term (message d) ∨ occurs_in term (raw d)
         ∨ occurs_in term (component d))
    ∧ (doc_matches (build_filter pid q) ms d = true
       ↔ (projectId d = pid ∧ in_level_set q d
          ∧ not_before_start q d ∧ not_after_end q d)
         ∧ (occurs_in term (message d) ∨ occurs_in term (raw d)
            ∨ occurs_in term (component d))).
Proof.
  intros Hq Hne Hplain.
  assert (given (q_search q) = true) as Hgiven.
  { rewrite Hq. simpl. apply negb_true_iff.
    by destruct (String.eqb_spec term ""). }
  set (atoms := Lit <$> list_ascii_of_string term).
  set (ms := [mkMatcher FMessage atoms true; mkMatcher FRaw atoms true;
              mkMatcher FComponent atoms true]).
  assert (compile_or (build_filter pid q) = Some (Some ms)) as Hms.
  { unfold compile_or, build_filter. cbn [f_or]. rewrite Hgiven, Hq.
    cbn [default mapM]. unfold compile_cond. cbn [regex field options].
    rewrite compile_plain by done. done. }
  assert (or_holds (Some ms) d = true
          ↔ occurs_in term (message d) ∨ occurs_in term (raw d)
            ∨ occurs_in term (component d)) as Hor.
  { unfold ms. cbn [or_holds existsb]. rewrite !orb_true_iff.
    unfold atoms. rewrite !matcher_holds_plain. simpl.
    naive_solver. }
  exists (Some ms). split_and!; [done|done|].
  rewrite doc_matches_iff, Hor. tauto.
Qed.

(** C6 as first stated fails: the term is used as a pattern.  The term
    [a.c] selects a record whose message is [abc], in which [a.c] does
    not occur. *)
Lemma search_term_is_a_pattern :
  get_logs_handler sample_store "p1" search_a_dot_c
  = mkResponse 200 (LogsBody [log_abc] 1 false)
  ∧ ¬ (occurs_in "a.c" (message log_abc) ∨ occurs_in "a.c" (raw log_abc)
       ∨ occurs_in "a.c" (component log_abc)).
Proof.
  split; [vm_compute; reflexivity|].
  intros [(s & Hs & pre & post & H)|[(s & Hs & _)|(s & Hs & _)]];
    [|discriminate..].
  injection Hs as <-. vm_compute in H.
  destruct pre as [|x [|y pre]]; [discriminate|..];
    apply (f_equal length) in H; simpl in H;
    rewrite ?length_app in H; simpl in H; lia.
Qed.

(** A term that is not a well-formed pattern is an error, not a search. *)
Example unbalanced_parenthesis :
  get_logs_handler sample_store "p1"
    (mkParams None (Some "(") None None None None)
  = mkResponse 500
      (ErrorBody "Failed to fetch logs" (Some "Regular expression is invalid")).
Proof. vm_compute. reflexivity. Qed.

(** ** Project deletion *)

Lemma filter_complement_length {X : Type} (Q : X → Prop)
    `{!∀ x, Decision (Q x)} (l : list X) :
  length (filter Q l) + length (filter (λ x, ¬ Q x) l) = length l.
Proof.
  rewrite <- length_app. by rewrite filter_app_complement.
Qed.

Lemma deleteMany_count (id : string) (st : Store) :
  connected st = true →
  deleteMany id st
  = Resolved (filter (λ d, projectId d ≠ id) (Log st),
              length (filter (λ d, projectId d = id) (Log st))).
Proof.
  intros Hc. unfold deleteMany. rewrite Hc. do 2 f_equal.
  pose proof (filter_complement_length (λ d, projectId d = id) (Log st)). lia.
Qed.

Lemma window_of_nothing (R : relation LogDoc) `{!∀ x y, Decision (R x y)}
    (limit : option nat) (skip : nat) :
  apply_limit limit (drop skip (merge_sort R [])) = [].
Proof.
  change (merge_sort R []) with (@nil LogDoc).
  rewrite drop_nil. by destruct limit as [[|n]|].
Qed.

(** No record of a project is left: no query scoped to it finds any. *)
Lemma no_match_without_records (st : Store) (pid : string) (q : QueryParams)
    (ms : option (list Matcher)) :
  (∀ d, d ∈ Log st → projectId d ≠ pid) →
  filter (λ d, doc_matches (build_filter pid q) ms d) (Log st) = [].
Proof.
  intros Hnone. apply filter_none. intros d Hd Hm.
  apply Is_true_true, doc_matches_iff in Hm as [Hpid _]. by apply (Hnone d).
Qed.

(** What [filter] keeps after a deletion does not carry the identifier
    deleted. *)
Ltac kept_is_foreign :=
  simpl; intros ? Hkept; by apply list_elem_of_filter in Hkept as [? _].

(** C8.  Deleting a project on a connected store is answered 200 with
    success and logsDeleted = K, the number of log records whose
    projectId is the project's; exactly those records are removed from
    the collection; and a later query scoped to the project, whatever
    its parameters, reports total 0 and no record when it is answered
    (the query without parameters is answered). *)
Theorem delete_cascades (st : Store) (id : string) :
  connected st = true →
  ∃ st',
    delete_project_handler st id
    = (st', mkResponse 200
              (DeletedBody true
                 (length (filter (λ d, projectId d = id) (Log st)))))
    ∧ Log st' = filter (λ d, projectId d ≠ id) (Log st)
    ∧ length (Log st') + length (filter (λ d, projectId d = id) (Log st))
      = length (Log st)
    ∧ (∀ p, p ∈ Project st' → _id p ≠ id)
    ∧ (∀ q logs total hasMore,
         get_logs_handler st' id q = mkResponse 200 (LogsBody logs total hasMore) →
         total = 0 ∧ logs = [])
    ∧ get_logs_handler st' id no_params = mkResponse 200 (LogsBody [] 0 false).
Proof.
  intros Hc. eexists. split_and!.
  - unfold delete_project_handler, findByIdAndDelete.
    rewrite deleteMany_count by done. rewrite Hc. reflexivity.
  - done.
  - simpl. pose proof (filter_complement_length (λ d, projectId d = id) (Log st)).
    lia.
  - kept_is_foreign.
  - intros q logs total hasMore H.
    destruct (get_logs_success _ _ _ _ _ _ H)
      as (ms & skip & limit & _ & _ & _ & _ & Ht & Hlogs & _).
    rewrite no_match_without_records in Ht, Hlogs.
    + split; [done|]. rewrite Hlogs. apply window_of_nothing.
    + kept_is_foreign.
    + kept_is_foreign.
  - unfold get_logs_handler, countDocuments, find_sort_skip_limit, matching.
    cbn [connected compile_or build_filter f_or no_params q_search given].
    rewrite (no_match_without_records _ id no_params None).
    + unfold read_skip, read_limit, page_skip, page_limit.
      cbn [no_params q_skip q_limit given Z.leb Z.ltb Z.compare].
      change (read_direction (sort_direction (mkSort PTimestamp (-1))))
        with (@Resolved bool false).
      cbn [sort_path]. by rewrite window_of_nothing.
    + kept_is_foreign.
Qed.

(** ** The query and deletion theorems on sample stores *)

Lemma hasMore_iff_witness :
  countDocuments (build_filter "p1" first_page) sample_store = Resolved 2
  ∧ true = js_gt (Num (Z.of_nat 2))
             (js_add (page_skip first_page) (Num (Z.of_nat (length [log_timeout]))))
  ∧ (∀ skip : Z,
       page_skip first_page = Num skip →
       true = true ↔ (Z.of_nat 2 > skip + Z.of_nat (length [log_timeout]))%Z)
  ∧ (page_skip first_page = NaN → true = false).
Proof.
  apply (hasMore_iff sample_store "p1" first_page [log_timeout] 2 true).
  vm_compute. reflexivity.
Defined.

Lemma level_and_window_filter_witness :
  (∀ d, d ∈ [log_timeout; log_abc] →
     d ∈ Log sample_store ∧ projectId d = "p1"
     ∧ in_level_set errors_and_warnings_in_window d
     ∧ not_before_start errors_and_warnings_in_window d
     ∧ not_after_end errors_and_warnings_in_window d)
  ∧ ∃ ms,
      compile_or (build_filter "p1" errors_and_warnings_in_window) = Some ms
      ∧ 2 = length (filter
                      (λ d, doc_matches
                              (build_filter "p1" errors_and_warnings_in_window) ms d)
                      (Log sample_store))
      ∧ ∀ d, doc_matches (build_filter "p1" errors_and_warnings_in_window) ms d = true
             ↔ projectId d = "p1"
               ∧ in_level_set errors_and_warnings_in_window d
               ∧ not_before_start errors_and_warnings_in_window d
               ∧ not_after_end errors_and_warnings_in_window d
               ∧ or_holds ms d = true.
Proof.
  apply (level_and_window_filter sample_store "p1"
           errors_and_warnings_in_window [log_timeout; log_abc] 2 false).
  vm_compute. reflexivity.
Defined.

Lemma plain_timeout : plain_term "timeout".
Proof. apply (bool_decide_unpack _). vm_compute. exact I. Qed.

Lemma search_plain_term_witness :
  ∃ ms,
    compile_or (build_filter "p1" search_timeout) = Some ms
    ∧ (or_holds ms log_timeout = true
       ↔ occurs_in "timeout" (message log_timeout)
         ∨ occurs_in "timeout" (raw log_timeout)
         ∨ occurs_in "timeout" (component log_timeout))
    ∧ (doc_matches (build_filter "p1" search_timeout) ms log_timeout = true
       ↔ (projectId log_timeout = "p1" ∧ in_level_set search_timeout log_timeout
          ∧ not_before_start search_timeout log_timeout
          ∧ not_after_end search_timeout log_timeout)
         ∧ (occurs_in "timeout" (message log_timeout)
            ∨ occurs_in "timeout" (raw log_timeout)
            ∨ occurs_in "timeout" (component log_timeout))).
Proof.
  apply (search_plain_term "p1" search_timeout "timeout" log_timeout);
    [reflexivity|discriminate|apply plain_timeout].
Defined.

Lemma delete_cascades_witness :
  ∃ st',
    delete_project_handler sample_store "p1"
    = (st', mkResponse 200
              (DeletedBody true
                 (length (filter (λ d, projectId d = "p1") (Log sample_store)))))
    ∧ Log st' = filter (λ d, projectId d ≠ "p1") (Log sample_store)
    ∧ length (Log st')
      + length (filter (λ d, projectId d = "p1") (Log sample_store))
      = length (Log sample_store)
    ∧ (∀ p, p ∈ Project st' → _id p ≠ "p1")
    ∧ (∀ q logs total hasMore,
         get_logs_handler st' "p1" q = mkResponse 200 (LogsBody logs total hasMore) →
         total = 0 ∧ logs = [])
    ∧ get_logs_handler st' "p1" no_params = mkResponse 200 (LogsBody [] 0 false).
Proof. apply (delete_cascades sample_store "p1"). reflexivity. Defined.

(** Two of the three sample records belong to project p1. *)
Example delete_sample_project :
  (delete_project_handler sample_store "p1").2
  = mkResponse 200 (DeletedBody true 2)
  ∧ Log (delete_project_handler sample_store "p1").1 = [log_other].
Proof. split; vm_compute; reflexivity. Qed.

(** The example of the specification: 25 records match the search for
    timeout; with limit 10 and skip 0 the answer has 10 records, total
    25 and hasMore true. *)
Example search_timeout_first_page :
  get_logs_handler store_of_timeouts "p1" search_timeout
  = mkResponse 200 (LogsBody (replicate 10 log_timeout) 25 true).
Proof. vm_compute. reflexivity. Qed.

(** A skip that is not a number: the strict store rejects the window;
    a store that reads it as no skip is answered with hasMore false,
    which is [total > NaN]. *)
Example skip_not_a_number :
  get_logs_handler sample_store "p1" skip_abc
  = mkResponse 500
      (ErrorBody "Failed to fetch logs"
         (Some "skip must be a non-negative integer"))
  ∧ get_logs_handler lenient_store "p1" skip_abc
    = mkResponse 200 (LogsBody [log_timeout] 2 false).
Proof. split; vm_compute; reflexivity. Qed.

(** * Further properties of the handlers *)

(** ** Bulk ingestion *)

Lemma totalBatches_le_iff {A : Type} (B : nat) (xs : list A) (k : nat) :
  0 < B → totalBatches B xs ≤ k ↔ length xs ≤ k * B.
Proof. intros HB. by apply ceil_div_le_iff. Qed.

Lemma partition_single {A : Type} (B : nat) (xs : list A) :
  0 < B → xs ≠ [] → length xs ≤ B → partition B xs = [(1, xs)].
Proof.
  intros HB Hne Hlen. unfold partition.
  assert (totalBatches B xs = 1) as ->.
  { pose proof (totalBatches_pos B xs HB Hne).
    assert (totalBatches B xs ≤ 1)
      by (apply totalBatches_le_iff; [done|lia]).
    lia. }
  cbn [seq fmap list_fmap]. unfold batch_at, slice.
  replace (0 * B + B - 0 * B) with B by lia.
  replace (0 * B) with 0 by lia.
  by rewrite drop_0, take_ge by lia.
Qed.

(** X1.  The answer and the batches written do not depend on the order in
    which the writes of a wave settle. *)
Theorem bulk_answer_ignores_settle_order
    (insertMany : nat → list JsObject → bool)
    (order1 order2 : list nat → list nat) (reqBody : JsObject) :
  (λ r : Response * list (Event JsObject), (r.1, dispatched r.2))
    <$> bulk_handler insertMany order1 reqBody
  = (λ r : Response * list (Event JsObject), (r.1, dispatched r.2))
      <$> bulk_handler insertMany order2 reqBody.
Proof.
  destruct (js_get reqBody "logs") as [| | | | |entries|] eqn:Hlogs;
    try (unfold bulk_handler, bulk_handler_with; by rewrite Hlogs).
  destruct entries as [|entry entries].
  { unfold bulk_handler, bulk_handler_with. by rewrite Hlogs. }
  unfold bulk_handler.
  rewrite !(bulk_handler_accepts _ _ _ _ _ (entry :: entries))
    by first [apply BATCH_SIZE_pos|apply PARALLEL_BATCHES_pos|done].
  cbn [fmap option_fmap option_map fst snd].
  by rewrite !bulk_handler_dispatched
    by first [apply BATCH_SIZE_pos|apply PARALLEL_BATCHES_pos].
Qed.

(** X2.  A request of at most [BATCH_SIZE] records is written in one batch
    that holds all of them, so that its count is all or nothing. *)
Theorem small_request_all_or_nothing
    (insertMany : nat → list JsObject → bool)
    (settle_order : list nat → list nat) (reqBody : JsObject)
    (entries : list JsValue) :
  js_get reqBody "logs" = JArr entries → entries ≠ [] →
  length entries ≤ BATCH_SIZE →
  let docs := stamp (js_get reqBody "projectId") <$> entries in
  ∃ tr,
    bulk_handler insertMany settle_order reqBody
    = Some (mkResponse 201
              (CountBody (if insertMany 1 docs then length entries else 0)),
            tr)
    ∧ dispatched tr = [(1, docs)].
Proof.
  intros Hlogs Hne Hlen docs. unfold bulk_handler.
  assert (partition BATCH_SIZE docs = [(1, docs)]) as Hpart.
  { apply partition_single; [apply BATCH_SIZE_pos| |].
    - intros Hnil. by apply fmap_nil_inv in Hnil.
    - unfold docs. by rewrite length_fmap. }
  eexists. split.
  - rewrite (bulk_handler_accepts _ _ _ _ _ entries)
      by first [apply BATCH_SIZE_pos|apply PARALLEL_BATCHES_pos|done].
    fold docs. rewrite Hpart. cbn [fmap list_fmap sum_list_with].
    unfold promise_result. cbn [fst snd].
    assert (length docs = length entries) as ->
      by (unfold docs; by rewrite length_fmap).
    unfold id. rewrite Nat.add_0_r. reflexivity.
  - fold docs. rewrite bulk_handler_dispatched
      by first [apply BATCH_SIZE_pos|apply PARALLEL_BATCHES_pos].
    done.
Qed.

Lemma small_request_all_or_nothing_witness :
  ∃ tr,
    bulk_handler second_fails reverse (sample_request 7)
    = Some (mkResponse 201
              (CountBody
                 (if second_fails 1
                       (stamp (js_get (sample_request 7) "projectId")
                          <$> replicate 7 sample_entry)
                  then length (replicate 7 sample_entry) else 0)),
            tr)
    ∧ dispatched tr
      = [(1, stamp (js_get (sample_request 7) "projectId")
               <$> replicate 7 sample_entry)].
Proof.
  apply (small_request_all_or_nothing second_fails reverse (sample_request 7)
           (replicate 7 sample_entry));
    [reflexivity|discriminate|unfold BATCH_SIZE; simpl; lia].
Defined.

Lemma wave_length {A : Type} (B P : nat) (xs : list A) (w : nat) :
  length (wave B P xs w) = P `min` (totalBatches B xs - w * P).
Proof. unfold wave. by rewrite length_fmap, length_seq. Qed.

Lemma waves_from_lookup {A : Type} (B P : nat) (xs : list A) (n i : nat)
    (w : list (nat * list A)) :
  waves_from B P xs 0 n !! i = Some w → i < n ∧ w = wave B P xs i.
Proof.
  unfold waves_from. rewrite list_lookup_fmap. intros Hw.
  destruct (seq 0 n !! i) as [k|] eqn:Hk; [|done].
  apply lookup_seq in Hk as [-> Hi]. simpl in Hw. by injection Hw as <-.
Qed.

(** X4.  The writes of a request come in waves of exactly [P] consecutive
    batches, but for the last wave, which takes the batches left:
    ceil(ceil(N/B)/P) waves in all. *)
Theorem waves_full_but_last (B P : nat)
    (insertMany : nat → list JsObject → bool)
    (settle_order : list nat → list nat) (reqBody : JsObject)
    (entries : list JsValue) :
  0 < B → 0 < P →
  js_get reqBody "logs" = JArr entries → entries ≠ [] →
  ∃ resp tr waves,
    bulk_handler_with B P insertMany settle_order reqBody = Some (resp, tr)
    ∧ tr = concat (wave_events insertMany settle_order <$> waves)
    ∧ concat waves
      = partition B (stamp (js_get reqBody "projectId") <$> entries)
    ∧ length waves = ceil_div (ceil_div (length entries) B) P
    ∧ ∀ i w, waves !! i = Some w →
        length w
        = if decide (S i < length waves) then P
          else ceil_div (length entries) B - i * P.
Proof.
  intros HB HP Hlogs Hne.
  set (docs := stamp (js_get reqBody "projectId") <$> entries).
  assert (totalBatches B docs = ceil_div (length entries) B) as Hnb
    by (unfold totalBatches, docs; by rewrite length_fmap).
  eexists _, _, (waves_from B P docs 0 (ceil_div (totalBatches B docs) P)).
  split_and!.
  - by apply bulk_handler_accepts.
  - done.
  - by apply concat_waves.
  - unfold waves_from. by rewrite length_fmap, length_seq, Hnb.
  - intros i w Hw. apply waves_from_lookup in Hw as [Hi ->].
    unfold waves_from. rewrite length_fmap, length_seq, wave_length, Hnb.
    rewrite Hnb in Hi.
    set (nb := ceil_div (length entries) B) in *.
    case_decide as Hlast.
    + apply ceil_div_lt_iff in Hlast; [|done]. lia.
    + assert (ceil_div nb P ≤ S i) as Hle by lia.
      apply ceil_div_le_iff in Hle; [|done]. lia.
Qed.

Lemma waves_full_but_last_witness :
  ∃ resp tr waves,
    bulk_handler_with 2 2 second_fails reverse (sample_request 7)
    = Some (resp, tr)
    ∧ tr = concat (wave_events second_fails reverse <$> waves)
    ∧ concat waves
      = partition 2 (stamp (js_get (sample_request 7) "projectId")
                       <$> replicate 7 sample_entry)
    ∧ length waves = ceil_div (ceil_div (length (replicate 7 sample_entry)) 2) 2
    ∧ ∀ i w, waves !! i = Some w →
        length w
        = if decide (S i < length waves) then 2
          else ceil_div (length (replicate 7 sample_entry)) 2 - i * 2.
Proof.
  apply (waves_full_but_last 2 2 second_fails reverse (sample_request 7)
           (replicate 7 sample_entry));
    [lia|lia|reflexivity|discriminate].
Defined.

(** X3.  A request of at most [B * P] records is written in a single wave:
    every batch is dispatched before any write settles. *)
Theorem single_wave (B P : nat)
    (insertMany : nat → list JsObject → bool)
    (settle_order : list nat → list nat) (reqBody : JsObject)
    (entries : list JsValue) :
  0 < B → 0 < P →
  js_get reqBody "logs" = JArr entries → entries ≠ [] →
  length entries ≤ B * P →
  ∃ resp tr settles,
    bulk_handler_with B P insertMany settle_order reqBody = Some (resp, tr)
    ∧ tr = ((λ p, Dispatch p.1 p.2)
              <$> partition B (stamp (js_get reqBody "projectId") <$> entries))
           ++ settles
    ∧ dispatched settles = [].
Proof.
  intros HB HP Hlogs Hne Hlen.
  set (docs := stamp (js_get reqBody "projectId") <$> entries).
  assert (length docs = length entries) as Hdocs
    by (unfold docs; by rewrite length_fmap).
  assert (0 < totalBatches B docs) as Hpos.
  { apply totalBatches_pos; [done|]. intros Hnil. by apply fmap_nil_inv in Hnil. }
  assert (totalBatches B docs ≤ P) as Hle
    by (apply totalBatches_le_iff; [done|lia]).
  assert (ceil_div (totalBatches B docs) P = 1) as Hone.
  { assert (ceil_div (totalBatches B docs) P ≤ 1)
      by (apply ceil_div_le_iff; [done|lia]).
    assert (0 < ceil_div (totalBatches B docs) P)
      by (apply ceil_div_lt_iff; [done|lia]).
    lia. }
  assert (wave B P docs 0 = partition B docs) as Hwave.
  { unfold wave, partition. do 2 f_equal. lia. }
  eexists _, _, _. split_and!.
  - by apply bulk_handler_accepts.
  - fold docs. rewrite Hone. unfold waves_from.
    cbn [seq fmap list_fmap concat]. rewrite app_nil_r, Hwave.
    unfold wave_events. reflexivity.
  - apply dispatched_settles.
Qed.

Lemma single_wave_witness :
  ∃ resp tr settles,
    bulk_handler_with BATCH_SIZE PARALLEL_BATCHES second_fails reverse
      (sample_request 12000)
    = Some (resp, tr)
    ∧ tr = ((λ p, Dispatch p.1 p.2)
              <$> partition BATCH_SIZE
                    (stamp (js_get (sample_request 12000) "projectId")
                       <$> replicate 12000 sample_entry))
           ++ settles
    ∧ dispatched settles = [].
Proof.
  apply (single_wave BATCH_SIZE PARALLEL_BATCHES second_fails reverse
           (sample_request 12000) (replicate 12000 sample_entry));
    [apply BATCH_SIZE_pos|apply PARALLEL_BATCHES_pos|reflexivity|discriminate|].
  rewrite length_replicate. unfold BATCH_SIZE, PARALLEL_BATCHES.
  apply Nat.leb_le. vm_compute. reflexivity.
Defined.

Section Settling.
Context {A : Type}.
Variable insertMany : nat → list A → bool.
Variable settle_order : list nat → list nat.

Local Abbreviation events := (wave_events insertMany settle_order).
Local Abbreviation settle := (settle_event insertMany).
Local Abbreviation outcome :=
  (λ p : nat * list A, (p.1, promise_result insertMany p)).

Lemma settled_app (t1 t2 : list (Event A)) :
  settled (t1 ++ t2) = settled t1 ++ settled t2.
Proof. unfold settled. apply omap_app. Qed.

Lemma settled_dispatches (ps : list (nat * list A)) :
  settled ((λ p, Dispatch p.1 p.2) <$> ps) = [].
Proof. induction ps as [|p ps IH]; [done|]. unfold settled in *. done. Qed.

(** With distinct batch numbers, the write of a batch settles with the
    result of that batch. *)
Lemma settle_of_batch (ps : list (nat * list A)) (p : nat * list A) :
  NoDup (fst <$> ps) → p ∈ ps →
  settle ps p.1 = [Settle p.1 (promise_result insertMany p)].
Proof.
  intros Hnodup Hp. unfold settle_event.
  destruct (list_find (λ q, q.1 = p.1) ps) as [[i q]|] eqn:Hfind.
  - apply list_find_Some in Hfind as (Hi & Hq & _).
    apply list_elem_of_lookup in Hp as [j Hj].
    assert (i = j) as ->.
    { apply (NoDup_lookup (fst <$> ps) i j p.1); [done|..].
      - by rewrite list_lookup_fmap, Hi, <- Hq.
      - by rewrite list_lookup_fmap, Hj. }
    by simplify_eq.
  - apply list_find_None in Hfind.
    rewrite Forall_forall in Hfind. by destruct (Hfind p Hp).
Qed.

Lemma settled_in_order (ps l : list (nat * list A)) :
  NoDup (fst <$> ps) → l ⊆ ps →
  settled ((fst <$> l) ≫= settle ps) = outcome <$> l.
Proof.
  intros Hnodup. induction l as [|p l IH]; intros Hsub; [done|].
  rewrite fmap_cons, bind_cons, settled_app.
  rewrite settle_of_batch by (done || apply Hsub; left).
  rewrite IH by (intros q Hq; apply Hsub; by right). done.
Qed.

Lemma settled_settles (ps : list (nat * list A)) (ns : list nat) :
  settled (ns ≫= settle ps) = ns ≫= (λ n, settled (settle ps n)).
Proof.
  induction ns as [|n ns IH]; [done|].
  by rewrite !bind_cons, settled_app, IH.
Qed.

(** Each write of a wave settles exactly once, in some order. *)
Lemma settled_wave (ps : list (nat * list A)) :
  (∀ ns, settle_order ns ≡ₚ ns) → NoDup (fst <$> ps) →
  settled (events ps) ≡ₚ outcome <$> ps.
Proof.
  intros Hperm Hnodup. unfold wave_events.
  rewrite settled_app, settled_dispatches, app_nil_l.
  rewrite settled_settles, Hperm, <- settled_settles.
  by rewrite settled_in_order.
Qed.

Lemma settled_waves (ws : list (list (nat * list A))) :
  (∀ ns, settle_order ns ≡ₚ ns) →
  Forall (λ ps, NoDup (fst <$> ps)) ws →
  settled (concat (events <$> ws)) ≡ₚ outcome <$> concat ws.
Proof.
  intros Hperm Hws. induction Hws as [|ps ws Hps _ IH]; [done|].
  rewrite fmap_cons, !concat_cons, settled_app, fmap_app.
  by rewrite settled_wave, IH.
Qed.
End Settling.

Lemma waves_from_distinct {A : Type} (B P : nat) (xs : list A) (w n : nat) :
  Forall (λ ps, NoDup (fst <$> ps)) (waves_from B P xs w n).
Proof.
  unfold waves_from. apply Forall_fmap, Forall_forall. intros v _.
  unfold wave. simpl. rewrite <- list_fmap_compose.
  apply NoDup_fmap_2; [|apply NoDup_seq].
  intros k1 k2. simpl. lia.
Qed.

(** X5.  Every batch written settles exactly once, with the size of the batch
    when its write resolved and with 0 when it rejected, and the count
    of the answer is the sum of what the writes settled with. *)
Theorem count_is_sum_of_settled (B P : nat)
    (insertMany : nat → list JsObject → bool)
    (settle_order : list nat → list nat) (reqBody : JsObject)
    (entries : list JsValue) :
  0 < B → 0 < P →
  (∀ ns, settle_order ns ≡ₚ ns) →
  js_get reqBody "logs" = JArr entries → entries ≠ [] →
  ∃ count tr,
    bulk_handler_with B P insertMany settle_order reqBody
    = Some (mkResponse 201 (CountBody count), tr)
    ∧ settled tr
      ≡ₚ (λ p, (p.1, if insertMany p.1 p.2 then length p.2 else 0))
           <$> dispatched tr
    ∧ count = sum_list (snd <$> settled tr).
Proof.
  intros HB HP Hperm Hlogs Hne.
  set (docs := stamp (js_get reqBody "projectId") <$> entries).
  assert (settled (concat (wave_events insertMany settle_order
                             <$> waves_from B P docs 0
                                   (ceil_div (totalBatches B docs) P)))
          ≡ₚ (λ p, (p.1, promise_result insertMany p)) <$> partition B docs)
    as Hsettled.
  { rewrite settled_waves by (done || apply waves_from_distinct).
    by rewrite concat_waves. }
  eexists _, _. split_and!.
  - by apply bulk_handler_accepts.
  - fold docs. by rewrite Hsettled, bulk_handler_dispatched.
  - fold docs. rewrite Hsettled. by rewrite <- list_fmap_compose.
Qed.

Lemma count_is_sum_of_settled_witness :
  ∃ count tr,
    bulk_handler_with 2 2 second_fails reverse (sample_request 7)
    = Some (mkResponse 201 (CountBody count), tr)
    ∧ settled tr
      ≡ₚ (λ p, (p.1, if second_fails p.1 p.2 then length p.2 else 0))
           <$> dispatched tr
    ∧ count = sum_list (snd <$> settled tr).
Proof.
  apply (count_is_sum_of_settled 2 2 second_fails reverse (sample_request 7)
           (replicate 7 sample_entry));
    [lia|lia|apply reverse_permutes|reflexivity|discriminate].
Defined.

(** X6.  Stamping loses nothing: the store is handed as many records as
    the request has entries, in their order, and the record made of an
    entry that is an object has the properties of that object and
    projectId, every property other than projectId with the value the
    entry gives it. *)
Theorem stamping_keeps_fields (B P : nat)
    (insertMany : nat → list JsObject → bool)
    (settle_order : list nat → list nat) (reqBody : JsObject)
    (entries : list JsValue) :
  0 < B → 0 < P →
  js_get reqBody "logs" = JArr entries → entries ≠ [] →
  ∃ resp tr,
    bulk_handler_with B P insertMany settle_order reqBody = Some (resp, tr)
    ∧ length (concat (snd <$> dispatched tr)) = length entries
    ∧ ∀ i m,
        entries !! i = Some (JObj m) →
        ∃ doc,
          concat (snd <$> dispatched tr) !! i = Some doc
          ∧ dom doc = {["projectId"]} ∪ dom m
          ∧ ∀ k, k ≠ "projectId" → doc !! k = m !! k.
Proof.
  intros HB HP Hlogs Hne.
  eexists _, _. split; [by apply bulk_handler_accepts|].
  rewrite bulk_handler_dispatched, partition_concat by done.
  split; [by rewrite length_fmap|].
  intros i m Hentry. eexists. split_and!.
  - by rewrite list_lookup_fmap, Hentry.
  - unfold stamp. by rewrite dom_insert_L.
  - intros k Hk. unfold stamp. by rewrite lookup_insert_ne.
Qed.

Lemma stamping_keeps_fields_witness :
  ∃ resp tr,
    bulk_handler_with BATCH_SIZE PARALLEL_BATCHES second_fails reverse
      (sample_request 7)
    = Some (resp, tr)
    ∧ length (concat (snd <$> dispatched tr)) = length (replicate 7 sample_entry)
    ∧ ∀ i m,
        replicate 7 sample_entry !! i = Some (JObj m) →
        ∃ doc,
          concat (snd <$> dispatched tr) !! i = Some doc
          ∧ dom doc = {["projectId"]} ∪ dom m
          ∧ ∀ k, k ≠ "projectId" → doc !! k = m !! k.
Proof.
  apply (stamping_keeps_fields BATCH_SIZE PARALLEL_BATCHES second_fails reverse
           (sample_request 7) (replicate 7 sample_entry));
    [apply BATCH_SIZE_pos|apply PARALLEL_BATCHES_pos|reflexivity|discriminate].
Defined.

(** ** Queries: windows and order *)

Lemma ascii_compare_N (a b : ascii) :
  Ascii.compare a b = (N_of_ascii a ?= N_of_ascii b)%N.
Proof. done. Qed.

Lemma string_compare_cons (c1 c2 : ascii) (s1 s2 : string) :
  String.compare (String c1 s1) (String c2 s2)
  = match (N_of_ascii c1 ?= N_of_ascii c2)%N with
    | Eq => String.compare s1 s2
    | Lt => Lt
    | Gt => Gt
    end.
Proof. done. Qed.

(** The order of strings is transitive. *)
Lemma string_leb_trans (a b c : string) :
  String.leb a b = true → String.leb b c = true → String.leb a c = true.
Proof.
  unfold String.leb. revert b c.
  induction a as [|c1 a IH]; intros [|c2 b] [|c3 c]; try done.
  rewrite !string_compare_cons.
  destruct (N.compare_spec (N_of_ascii c1) (N_of_ascii c2)) as [H12|H12|H12];
    destruct (N.compare_spec (N_of_ascii c2) (N_of_ascii c3)) as [H23|H23|H23];
    destruct (N.compare_spec (N_of_ascii c1) (N_of_ascii c3)) as [H13|H13|H13];
    try done; try lia.
  apply IH.
Qed.

Lemma string_leb_antisym (a b : string) :
  String.leb a b = true → String.leb b a = true → a = b.
Proof.
  unfold String.leb. rewrite (String.compare_antisym a b).
  destruct (String.compare b a) eqn:Hcmp; simpl; try done.
  intros _ _. symmetry. by apply String.compare_eq_iff.
Qed.

Lemma key_le_total (k1 k2 : option string) :
  key_le k1 k2 = true ∨ key_le k2 k1 = true.
Proof.
  destruct k1 as [s1|], k2 as [s2|]; simpl; try tauto.
  apply String.leb_total.
Qed.

Lemma key_le_trans (k1 k2 k3 : option string) :
  key_le k1 k2 = true → key_le k2 k3 = true → key_le k1 k3 = true.
Proof.
  destruct k1 as [s1|], k2 as [s2|], k3 as [s3|]; simpl; try done.
  apply string_leb_trans.
Qed.

Lemma key_le_antisym (k1 k2 : option string) :
  key_le k1 k2 = true → key_le k2 k1 = true → k1 = k2.
Proof.
  destruct k1 as [s1|], k2 as [s2|]; simpl; try done.
  intros H12 H21. f_equal. by apply string_leb_antisym.
Qed.

Lemma in_order_total (ascending : bool) (k1 k2 : option string) :
  in_order ascending k1 k2 = true ∨ in_order ascending k2 k1 = true.
Proof.
  destruct ascending; simpl; [apply key_le_total|].
  destruct (key_le_total k1 k2); tauto.
Qed.

Lemma in_order_trans (ascending : bool) (k1 k2 k3 : option string) :
  in_order ascending k1 k2 = true → in_order ascending k2 k3 = true →
  in_order ascending k1 k3 = true.
Proof.
  destruct ascending; simpl; [apply key_le_trans|].
  intros H21 H32. by apply (key_le_trans k3 k2 k1).
Qed.

Lemma in_order_antisym (ascending : bool) (k1 k2 : option string) :
  in_order ascending k1 k2 = true → in_order ascending k2 k1 = true → k1 = k2.
Proof.
  destruct ascending; simpl; [apply key_le_antisym|].
  intros H21 H12. by apply key_le_antisym.
Qed.

(** Whatever the path, the direction and the ranks, the order of the
    store is a total preorder: sorting by it gives a sorted list. *)
#[global] Instance sorts_before_total path ascending rank :
  Total (sorts_before path ascending rank).
Proof.
  intros d1 d2. unfold sorts_before.
  destruct (in_order ascending (path_value path d1) (path_value path d2)) eqn:H12,
    (in_order ascending (path_value path d2) (path_value path d1)) eqn:H21.
  - destruct (decide (rank d1 ≤ rank d2)); [left|right]; split; try done;
      intros _; lia.
  - left. by split.
  - right. by split.
  - destruct (in_order_total ascending (path_value path d1) (path_value path d2));
      congruence.
Qed.

#[global] Instance sorts_before_trans path ascending rank :
  Transitive (sorts_before path ascending rank).
Proof.
  intros d1 d2 d3 [H12 Hr12] [H23 Hr23]. split.
  - by eapply in_order_trans.
  - intros H31.
    assert (rank d1 ≤ rank d2) by (apply Hr12; by eapply in_order_trans).
    assert (rank d2 ≤ rank d3) by (apply Hr23; by eapply in_order_trans).
    lia.
Qed.

Lemma StronglySorted_impl {X : Type} (R1 R2 : relation X) (l : list X) :
  (∀ x y, R1 x y → R2 x y) → StronglySorted R1 l → StronglySorted R2 l.
Proof.
  intros Himpl. induction 1 as [|x l Hsorted IH Hall]; constructor; [done|].
  eapply Forall_impl; [exact Hall|]. intros y. apply Himpl.
Qed.

Lemma window_sorted (R : relation LogDoc) `{!∀ x y, Decision (R x y)}
    `{!Total R} `{!Transitive R}
    (limit : option nat) (skip : nat) (ds : list LogDoc) :
  StronglySorted R (apply_limit limit (drop skip (merge_sort R ds))).
Proof.
  pose proof (StronglySorted_merge_sort R ds) as Hsorted.
  rewrite <- (take_drop skip (merge_sort R ds)) in Hsorted.
  apply StronglySorted_app_1_r in Hsorted.
  destruct limit as [n|]; [|done]. simpl.
  rewrite <- (take_drop n (drop skip _)) in Hsorted.
  by apply StronglySorted_app_1_l in Hsorted.
Qed.

(** Sorting on the timestamp, descending, puts the newer record first
    whatever the ranks are. *)
Lemma descending_timestamp (rank : LogDoc → nat) (d1 d2 : LogDoc) :
  sorts_before PTimestamp false rank d1 d2 → newer_first d1 d2.
Proof.
  unfold sorts_before, newer_first. simpl. intros [H _].
  destruct (timestamp d1), (timestamp d2); simpl in *; try done.
  by apply Is_true_true.
Qed.

(** X7.  The records of an answer come newest first: no record has a
    timestamp below that of a record after it, as strings, and the
    records without a timestamp come last. *)
Theorem logs_newest_first (st : Store) (pid : string) (q : QueryParams)
    (logs : list LogDoc) (total : nat) (hasMore : bool) :
  get_logs_handler st pid q = mkResponse 200 (LogsBody logs total hasMore) →
  StronglySorted newer_first logs
  ∧ ∀ i j d1 d2 t2,
      i < j → logs !! i = Some d1 → logs !! j = Some d2 →
      timestamp d2 = Some t2 →
      ∃ t1, timestamp d1 = Some t1 ∧ String.leb t2 t1 = true.
Proof.
  intros H.
  destruct (get_logs_success _ _ _ _ _ _ H)
    as (ms & skip & limit & _ & _ & _ & _ & _ & Hlogs & _).
  assert (StronglySorted newer_first logs) as Hsorted.
  { rewrite Hlogs. eapply StronglySorted_impl; [apply descending_timestamp|].
    apply window_sorted; apply _. }
  split; [done|].
  intros i j d1 d2 t2 Hij H1 H2 Ht2.
  assert (newer_first d1 d2) as Hnewer.
  { rewrite <- (take_drop_middle logs i d1 H1) in Hsorted, H2.
    apply StronglySorted_app_1_r, StronglySorted_inv in Hsorted as [_ Hall].
    rewrite Forall_forall in Hall. apply Hall.
    rewrite lookup_app_r in H2 by (rewrite length_take; lia).
    rewrite length_take_le in H2 by (apply lookup_lt_Some in H1; lia).
    destruct (j - i) as [|k] eqn:Hk; [lia|]. simpl in H2.
    by eapply list_elem_of_lookup_2. }
  unfold newer_first in Hnewer. rewrite Ht2 in Hnewer.
  destruct (timestamp d1) as [t1|]; [|done].
  exists t1. split; [done|]. by apply Is_true_true.
Qed.

Lemma logs_newest_first_witness :
  StronglySorted newer_first [log_timeout; log_abc]
  ∧ ∀ i j d1 d2 t2,
      i < j → [log_timeout; log_abc] !! i = Some d1 →
      [log_timeout; log_abc] !! j = Some d2 →
      timestamp d2 = Some t2 →
      ∃ t1, timestamp d1 = Some t1 ∧ String.leb t2 t1 = true.
Proof.
  apply (logs_newest_first sample_store "p1" no_params
           [log_timeout; log_abc] 2 false).
  vm_compute. reflexivity.
Defined.

Lemma read_skip_number (st : Store) (s : Z) :
  (0 ≤ s)%Z → read_skip st (Num s) = Resolved (Z.to_nat s).
Proof. intros Hs. unfold read_skip. by rewrite (proj2 (Z.leb_le 0 s)). Qed.

Lemma read_limit_number (st : Store) (l : Z) :
  (0 < l)%Z → read_limit st (Num l) = Resolved (Some (Z.to_nat l)).
Proof. intros Hl. unfold read_limit. by rewrite (proj2 (Z.ltb_lt 0 l)). Qed.



(** The answer to a query whose window is well formed, on a connected
    store, when the patterns compile. *)
Lemma get_logs_window (st : Store) (pid : string) (q : QueryParams)
    (ms : option (list Matcher)) (s l : Z) :
  connected st = true →
  compile_or (build_filter pid q) = Some ms →
  page_skip q = Num s → (0 ≤ s)%Z →
  page_limit q = Num l → (0 < l)%Z →
  let found := filter (λ d, doc_matches (build_filter pid q) ms d) (Log st) in
  let logs :=
    take (Z.to_nat l)
      (drop (Z.to_nat s)
         (merge_sort (sorts_before PTimestamp false (tie_rank st (Num s) (Num l)))
            found)) in
  get_logs_handler st pid q
  = mkResponse 200
      (LogsBody logs (length found)
         (s + Z.of_nat (length logs) <? Z.of_nat (length found))%Z).
Proof.
  intros Hc Hms Hs Hs0 Hl Hl0 found logs.
  unfold get_logs_handler, countDocuments, find_sort_skip_limit, matching.
  rewrite Hc, Hms, Hs, Hl, read_skip_number, read_limit_number by done.
  done.
Qed.

(** Where the sort tells every two records apart, the ranks do not
    matter: the sorted list is the same for all of them. *)
Lemma NoDup_fmap_inj_on {X Y : Type} (f : X → Y) (l : list X) (x y : X) :
  NoDup (f <$> l) → x ∈ l → y ∈ l → f x = f y → x = y.
Proof.
  induction l as [|a l IH]; [by intros _ ?%elem_of_nil|].
  rewrite fmap_cons, NoDup_cons. intros [Hnew Hnodup] Hx Hy Hf.
  apply elem_of_cons in Hx as [->|Hx], Hy as [->|Hy]; [done|..].
  - exfalso. apply Hnew. rewrite Hf. apply list_elem_of_fmap. by exists y.
  - exfalso. apply Hnew. rewrite <- Hf. apply list_elem_of_fmap. by exists x.
  - by apply IH.
Qed.

Lemma sort_without_ties (path : Path) (ascending : bool)
    (rank1 rank2 : LogDoc → nat) (ds : list LogDoc) :
  NoDup (path_value path <$> ds) →
  merge_sort (sorts_before path ascending rank1) ds
  = merge_sort (sorts_before path ascending rank2) ds.
Proof.
  intros Hdistinct.
  apply (StronglySorted_unique_strong
           (λ d1 d2, in_order ascending (path_value path d1) (path_value path d2)
                     = true)).
  - intros d1 d2 Hd1 Hd2 H12 H21.
    rewrite merge_sort_Permutation in Hd1, Hd2.
    apply (NoDup_fmap_inj_on (path_value path) ds); [done..|].
    by apply (in_order_antisym ascending).
  - eapply StronglySorted_impl; [|apply StronglySorted_merge_sort; apply _].
    by intros d1 d2 [H12 _].
  - eapply StronglySorted_impl; [|apply StronglySorted_merge_sort; apply _].
    by intros d1 d2 [H12 _].
  - by rewrite !merge_sort_Permutation.
Qed.

(** The records a query selects are among those of its project. *)
Lemma matching_distinct (st : Store) (pid : string) (q : QueryParams)
    (ms : option (list Matcher)) :
  NoDup (timestamp <$> filter (λ d, projectId d = pid) (Log st)) →
  NoDup (path_value PTimestamp
           <$> filter (λ d, doc_matches (build_filter pid q) ms d) (Log st)).
Proof.
  intros Hdistinct.
  rewrite <- (list_filter_filter_l _ (λ d, projectId d = pid)).
  - eapply sublist_NoDup; [exact Hdistinct|].
    apply (fmap_sublist timestamp), sublist_filter.
  - intros d Hm. by apply Is_true_true, doc_matches_iff in Hm as [Hpid _].
Qed.

Lemma build_filter_with_window (pid : string) (q : QueryParams)
    (limit skip : option string) :
  build_filter pid (with_window q limit skip) = build_filter pid q.
Proof. done. Qed.

(** X9.  When no two records of the project carry the same timestamp
    (and at most one carries none), consecutive pages tile the result:
    on an unchanged store, the page of [l1] records at skip [s]
    followed by the page of [l2] records at skip [s + l1] is the page
    of [l1 + l2] records at skip [s], and the three answers report the
    same total.  (Records of equal timestamp may come in another order
    from one page to the next.) *)
Theorem consecutive_pages (st : Store) (pid : string) (q : QueryParams)
    (limit1 limit2 limit12 skip1 skip2 : option string) (s l1 l2 : Z)
    (logs12 : list LogDoc) (total : nat) (hasMore12 : bool) :
  NoDup (timestamp <$> filter (λ d, projectId d = pid) (Log st)) →
  (0 ≤ s)%Z → (0 < l1)%Z → (0 < l2)%Z →
  page_skip (with_window q limit1 skip1) = Num s →
  page_limit (with_window q limit1 skip1) = Num l1 →
  page_skip (with_window q limit2 skip2) = Num (s + l1) →
  page_limit (with_window q limit2 skip2) = Num l2 →
  page_limit (with_window q limit12 skip1) = Num (l1 + l2) →
  get_logs_handler st pid (with_window q limit12 skip1)
  = mkResponse 200 (LogsBody logs12 total hasMore12) →
  ∃ logs1 logs2 hasMore1 hasMore2,
    get_logs_handler st pid (with_window q limit1 skip1)
    = mkResponse 200 (LogsBody logs1 total hasMore1)
    ∧ get_logs_handler st pid (with_window q limit2 skip2)
      = mkResponse 200 (LogsBody logs2 total hasMore2)
    ∧ logs12 = logs1 ++ logs2.
Proof.
  intros Hdistinct Hs0 Hl1 Hl2 Hs1 Hlim1 Hs2 Hlim2 Hlim12 H.
  destruct (get_logs_success _ _ _ _ _ _ H)
    as (ms & skip & limit & Hc & Hms & Hskip & Hlimit & Ht & Hlogs & _).
  assert (page_skip (with_window q limit12 skip1) = Num s) as Hs12 by exact Hs1.
  rewrite Hs12, Hlim12 in Hlogs.
  rewrite Hs12, read_skip_number in Hskip by done. injection Hskip as <-.
  rewrite Hlim12, read_limit_number in Hlimit by lia. injection Hlimit as <-.
  rewrite build_filter_with_window in Hms, Ht, Hlogs.
  pose proof (matching_distinct st pid q ms Hdistinct) as Hfound.
  eexists _, _, _, _. split_and!.
  - rewrite (get_logs_window st pid _ ms s l1);
      rewrite ?build_filter_with_window; try done. by rewrite <- Ht.
  - rewrite (get_logs_window st pid _ ms (s + l1) l2);
      rewrite ?build_filter_with_window; try done; [|lia]. by rewrite <- Ht.
  - rewrite Hlogs. simpl.
    rewrite (sort_without_ties _ _ (tie_rank st (Num s) (Num l1))
               (tie_rank st (Num s) (Num (l1 + l2))) _ Hfound).
    rewrite (sort_without_ties _ _ (tie_rank st (Num (s + l1)) (Num l2))
               (tie_rank st (Num s) (Num (l1 + l2))) _ Hfound).
    rewrite !Z2Nat.inj_add by lia.
    rewrite <- (drop_drop _ (Z.to_nat l1) (Z.to_nat s)).
    by rewrite take_take_drop.
Qed.

Lemma consecutive_pages_witness :
  ∃ logs1 logs2 hasMore1 hasMore2,
    get_logs_handler sample_store "p1"
      (with_window no_params (Some "1") (Some "0"))
    = mkResponse 200 (LogsBody logs1 2 hasMore1)
    ∧ get_logs_handler sample_store "p1"
        (with_window no_params (Some "1") (Some "1"))
      = mkResponse 200 (LogsBody logs2 2 hasMore2)
    ∧ [log_timeout; log_abc] = logs1 ++ logs2.
Proof.
  apply (consecutive_pages sample_store "p1" no_params
           (Some "1") (Some "1") (Some "2") (Some "0") (Some "1") 0 1 1
           [log_timeout; log_abc] 2 false);
    [apply (bool_decide_unpack _); vm_compute; exact I
    |lia|lia|lia|reflexivity|reflexivity|reflexivity|reflexivity|reflexivity
    |vm_compute; reflexivity].
Defined.

(** Without the premise on the timestamps the pages need not tile: a
    store is free to put either of two records of one timestamp first,
    page by page, and the same record then comes up on both pages. *)
Example pages_with_ties :
  get_logs_handler fickle_store "p1" (with_window no_params (Some "1") (Some "0"))
  = mkResponse 200 (LogsBody [log_abc] 2 true)
  ∧ get_logs_handler fickle_store "p1"
      (with_window no_params (Some "1") (Some "1"))
    = mkResponse 200 (LogsBody [log_abc] 2 false)
  ∧ get_logs_handler fickle_store "p1"
      (with_window no_params (Some "2") (Some "0"))
    = mkResponse 200 (LogsBody [log_abc; log_twin] 2 false).
Proof. split_and!; vm_compute; reflexivity. Qed.

(** X10.  The total of an answer does not depend on the window asked for. *)
Theorem total_ignores_window (st : Store) (pid : string) (q : QueryParams)
    (limit1 skip1 limit2 skip2 : option string)
    (logs1 logs2 : list LogDoc) (total1 total2 : nat) (hasMore1 hasMore2 : bool) :
  get_logs_handler st pid (with_window q limit1 skip1)
  = mkResponse 200 (LogsBody logs1 total1 hasMore1) →
  get_logs_handler st pid (with_window q limit2 skip2)
  = mkResponse 200 (LogsBody logs2 total2 hasMore2) →
  total1 = total2.
Proof.
  intros H1 H2.
  destruct (get_logs_success _ _ _ _ _ _ H1)
    as (ms1 & _ & _ & _ & Hms1 & _ & _ & Ht1 & _).
  destruct (get_logs_success _ _ _ _ _ _ H2)
    as (ms2 & _ & _ & _ & Hms2 & _ & _ & Ht2 & _).
  rewrite build_filter_with_window in Hms1, Hms2, Ht1, Ht2.
  rewrite Hms1 in Hms2. injection Hms2 as <-. by rewrite Ht1, Ht2.
Qed.

Lemma total_ignores_window_witness : 2 = 2.
Proof.
  apply (total_ignores_window sample_store "p1" no_params
           (Some "1") (Some "0") (Some "5") (Some "1")
           [log_timeout] [log_abc] 2 2 true false);
    vm_compute; reflexivity.
Defined.

(** X11.  A window whose start is above its end selects nothing: an answered
    query has total 0 and no record. *)
Theorem inverted_window_is_empty (st : Store) (pid : string) (q : QueryParams)
    (s e : string) (logs : list LogDoc) (total : nat) (hasMore : bool) :
  q_start q = Some s → q_end q = Some e → s ≠ "" → e ≠ "" →
  String.leb s e = false →
  get_logs_handler st pid q = mkResponse 200 (LogsBody logs total hasMore) →
  total = 0 ∧ logs = [].
Proof.
  intros Hstart Hend Hs He Hinv H.
  destruct (get_logs_success _ _ _ _ _ _ H)
    as (ms & skip & limit & _ & _ & _ & _ & Ht & Hlogs & Hmore).
  assert (filter (λ d, doc_matches (build_filter pid q) ms d) (Log st) = [])
    as Hnone.
  { apply filter_none. intros d _ Hm.
    apply Is_true_true, doc_matches_iff in Hm as (_ & _ & Hlo & Hhi & _).
    unfold not_before_start, not_after_end in *.
    rewrite Hstart in Hlo. rewrite Hend in Hhi. simpl in *.
    destruct Hlo as (t & Ht1 & Hlo);
      [by destruct (String.eqb_spec s "")|].
    destruct Hhi as (t' & Ht2 & Hhi);
      [by destruct (String.eqb_spec e "")|].
    rewrite Ht1 in Ht2. injection Ht2 as <-.
    by rewrite (string_leb_trans s t e) in Hinv. }
  rewrite Hnone in Ht, Hlogs. rewrite window_of_nothing in Hlogs.
  by subst total logs.
Qed.

Lemma inverted_window_is_empty_witness :
  0 = 0 ∧ @nil LogDoc = [].
Proof.
  apply (inverted_window_is_empty sample_store "p1"
           (mkParams None None (Some "2024-05-02") (Some "2024-05-01") None None)
           "2024-05-02" "2024-05-01" [] 0 false);
    [reflexivity|reflexivity|discriminate|discriminate|reflexivity
    |vm_compute; reflexivity].
Defined.

(** ** Queries: parameters *)

Lemma given_absent_if_empty (p : option string) :
  given (absent_if_empty p) = given p.
Proof. unfold absent_if_empty. by destruct (given p) eqn:Hp. Qed.

Lemma default_absent_if_empty (p : option string) :
  given p = true → absent_if_empty p = p.
Proof. unfold absent_if_empty. by intros ->. Qed.

Lemma build_filter_without_empty (pid : string) (q : QueryParams) :
  build_filter pid (without_empty q) = build_filter pid q.
Proof.
  unfold build_filter, without_empty. cbn [q_level q_search q_start q_end].
  rewrite !given_absent_if_empty. f_equal.
  - destruct (given (q_level q)) eqn:H; [|done].
    by rewrite default_absent_if_empty.
  - destruct (given (q_start q)) eqn:Hs, (given (q_end q)) eqn:He;
      rewrite ?default_absent_if_empty; done.
  - destruct (given (q_search q)) eqn:H; [|done].
    by rewrite default_absent_if_empty.
Qed.

Lemma page_without_empty (q : QueryParams) :
  page_limit (without_empty q) = page_limit q
  ∧ page_skip (without_empty q) = page_skip q.
Proof.
  unfold page_limit, page_skip, without_empty. cbn [q_limit q_skip].
  rewrite !given_absent_if_empty.
  split.
  - destruct (given (q_limit q)) eqn:H; [|done].
    by rewrite default_absent_if_empty.
  - destruct (given (q_skip q)) eqn:H; [|done].
    by rewrite default_absent_if_empty.
Qed.

(** X12.  A parameter given as the empty string counts as not given: the
    answer is that of the query without it. *)
Theorem empty_parameters_are_absent (st : Store) (pid : string)
    (q : QueryParams) :
  get_logs_handler st pid (without_empty q) = get_logs_handler st pid q.
Proof.
  unfold get_logs_handler.
  destruct (page_without_empty q) as [-> ->].
  by rewrite build_filter_without_empty.
Qed.

Lemma occurs_in_lower (t1 t2 : string) (fld : option string) :
  lower t1 = lower t2 → occurs_in t1 fld ↔ occurs_in t2 fld.
Proof. intros Heq. unfold occurs_in, ci_substring. by rewrite Heq. Qed.

Lemma matcher_holds_lower (fld : TextField) (t1 t2 : string) (d : LogDoc) :
  lower t1 = lower t2 →
  matcher_holds (mkMatcher fld (Lit <$> list_ascii_of_string t1) true) d
  = matcher_holds (mkMatcher fld (Lit <$> list_ascii_of_string t2) true) d.
Proof.
  intros Heq. apply eq_true_iff_eq.
  rewrite !matcher_holds_plain. by apply occurs_in_lower.
Qed.

Lemma compile_or_plain (pid : string) (q : QueryParams) (term : string) :
  term ≠ "" → plain_term term →
  compile_or (build_filter pid (with_search q term))
  = Some (Some [ mkMatcher FMessage (Lit <$> list_ascii_of_string term) true;
                 mkMatcher FRaw (Lit <$> list_ascii_of_string term) true;
                 mkMatcher FComponent (Lit <$> list_ascii_of_string term) true ]).
Proof.
  intros Hne Hplain.
  unfold compile_or, build_filter, with_search. cbn [f_or q_search given].
  destruct (String.eqb_spec term "") as [|_]; [done|].
  cbn [negb default mapM]. unfold compile_cond. cbn [regex field options].
  by rewrite compile_plain.
Qed.

(** X13.  The search does not look at the letter case of the term: two terms
    without metacharacters that differ in case only give the same
    answer. *)
Theorem search_ignores_case_of_term (st : Store) (pid : string)
    (q : QueryParams) (term1 term2 : string) :
  term1 ≠ "" → term2 ≠ "" → plain_term term1 → plain_term term2 →
  lower term1 = lower term2 →
  get_logs_handler st pid (with_search q term1)
  = get_logs_handler st pid (with_search q term2).
Proof.
  intros Hne1 Hne2 Hp1 Hp2 Heq.
  unfold get_logs_handler, countDocuments, find_sort_skip_limit, matching.
  rewrite !compile_or_plain by done.
  assert (filter (λ d, doc_matches (build_filter pid (with_search q term1))
                         (Some [ mkMatcher FMessage (Lit <$> list_ascii_of_string term1) true;
                                 mkMatcher FRaw (Lit <$> list_ascii_of_string term1) true;
                                 mkMatcher FComponent (Lit <$> list_ascii_of_string term1) true ]) d)
            (Log st)
          = filter (λ d, doc_matches (build_filter pid (with_search q term2))
                           (Some [ mkMatcher FMessage (Lit <$> list_ascii_of_string term2) true;
                                   mkMatcher FRaw (Lit <$> list_ascii_of_string term2) true;
                                   mkMatcher FComponent (Lit <$> list_ascii_of_string term2) true ]) d)
              (Log st)) as ->.
  { apply list_filter_iff. intros d.
    rewrite !Is_true_true, !doc_matches_iff.
    cbn [or_holds existsb].
    rewrite !(matcher_holds_lower _ term1 term2) by done.
    unfold in_level_set, not_before_start, not_after_end, with_search.
    cbn [q_level q_start q_end]. done. }
  done.
Qed.

Lemma plain_TIMEOUT : plain_term "TIMEOUT".
Proof. apply (bool_decide_unpack _). vm_compute. exact I. Qed.

Lemma search_ignores_case_of_term_witness :
  get_logs_handler sample_store "p1" (with_search no_params "timeout")
  = get_logs_handler sample_store "p1" (with_search no_params "TIMEOUT").
Proof.
  apply (search_ignores_case_of_term sample_store "p1" no_params
           "timeout" "TIMEOUT");
    [discriminate|discriminate|apply plain_timeout|apply plain_TIMEOUT
    |reflexivity].
Defined.

(** ** Project deletion, continued *)

Lemma delete_project_state (st : Store) (id : string) :
  connected st = true →
  (delete_project_handler st id).1
  = mkStore true (filter (λ d, projectId d ≠ id) (Log st))
      (filter (λ p, _id p ≠ id) (Project st)) (odd_skip st) (odd_limit st)
      (tie_rank st).
Proof.
  intros Hc. unfold delete_project_handler, deleteMany, findByIdAndDelete.
  by rewrite Hc.
Qed.

Lemma delete_project_state_disconnected (st : Store) (id : string) :
  connected st = false → (delete_project_handler st id).1 = st.
Proof.
  destruct st as [c logs projects os ol rank]. simpl. intros ->. done.
Qed.

(** X16.  Deleting a project leaves the queries on every other project as
    they were. *)
Theorem delete_leaves_other_projects (st : Store) (id pid : string)
    (q : QueryParams) :
  pid ≠ id →
  get_logs_handler (delete_project_handler st id).1 pid q
  = get_logs_handler st pid q.
Proof.
  intros Hne. destruct (connected st) eqn:Hc.
  - rewrite delete_project_state by done.
    unfold get_logs_handler, countDocuments, find_sort_skip_limit, matching.
    cbn [connected Log tie_rank]. rewrite Hc.
    destruct (compile_or (build_filter pid q)) as [ms|]; [|done].
    rewrite (list_filter_filter_l _ (λ d, projectId d ≠ id)).
    + done.
    + intros d Hm. apply Is_true_true, doc_matches_iff in Hm as [-> _]. done.
  - by rewrite delete_project_state_disconnected.
Qed.

Lemma delete_leaves_other_projects_witness :
  get_logs_handler (delete_project_handler sample_store "p1").1 "p2" no_params
  = get_logs_handler sample_store "p2" no_params.
Proof.
  apply (delete_leaves_other_projects sample_store "p1" "p2" no_params).
  discriminate.
Defined.

(** X17.  Deleting twice is deleting once: the second deletion changes
    nothing and reports no record deleted. *)
Theorem delete_twice (st : Store) (id : string) :
  connected st = true →
  delete_project_handler (delete_project_handler st id).1 id
  = ((delete_project_handler st id).1, mkResponse 200 (DeletedBody true 0)).
Proof.
  intros Hc. rewrite delete_project_state by done.
  unfold delete_project_handler, deleteMany, findByIdAndDelete.
  cbn [connected Log Project odd_skip odd_limit tie_rank].
  rewrite !(list_filter_filter_l (λ d, projectId d ≠ id)) by done.
  rewrite !(list_filter_filter_l (λ p, _id p ≠ id)) by done.
  by rewrite Nat.sub_diag.
Qed.

Lemma delete_twice_witness :
  delete_project_handler (delete_project_handler sample_store "p1").1 "p1"
  = ((delete_project_handler sample_store "p1").1,
     mkResponse 200 (DeletedBody true 0)).
Proof. apply (delete_twice sample_store "p1"). reflexivity. Defined.

(** ** Reading numbers and level sets *)

Lemma small_digit (d : N) (Q : N → Prop) :
  (d < 10)%N →
  Q 0%N → Q 1%N → Q 2%N → Q 3%N → Q 4%N → Q 5%N → Q 6%N → Q 7%N → Q 8%N →
  Q 9%N → Q d.
Proof.
  intros Hd H0 H1 H2 H3 H4 H5 H6 H7 H8 H9.
  rewrite <- (N2Nat.id d).
  destruct (N.to_nat d) as [|[|[|[|[|[|[|[|[|[|k]]]]]]]]]] eqn:Hk;
    try assumption.
  exfalso. lia.
Qed.

Lemma digit_value_pretty (d : N) :
  (d < 10)%N → digit_value (pretty_N_char d) = Some (Z.of_N d).
Proof. intros Hd. by apply (small_digit d). Qed.

(** Reading the digits that [pretty] writes gives the number back. *)
Lemma parse_digits_pretty (x : N) (s : string) (acc : option Z) :
  (0 < x)%N → default 0%Z acc = 0%Z →
  parse_digits 10 (pretty_N_go x s) acc = parse_digits 10 s (Some (Z.of_N x)).
Proof.
  revert s acc.
  induction x as [x IH] using (well_founded_induction N.lt_wf_0).
  intros s acc Hx Hacc. rewrite pretty_N_go_step by done.
  assert (x `mod` 10 < 10)%N as Hmod by (apply N.mod_lt; lia).
  pose proof (N.div_mod x 10 ltac:(lia)) as Hdiv.
  destruct (decide (x `div` 10 = 0)%N) as [Hzero|Hpos].
  - rewrite Hzero, pretty_N_go_0. cbn [parse_digits].
    rewrite digit_value_pretty by done.
    rewrite (proj2 (Z.ltb_lt (Z.of_N (x `mod` 10)) 10)) by lia.
    rewrite Hacc. do 2 f_equal. lia.
  - rewrite IH; [|apply N.div_lt; lia|lia|done].
    cbn [parse_digits]. rewrite digit_value_pretty by done.
    rewrite (proj2 (Z.ltb_lt (Z.of_N (x `mod` 10)) 10)) by lia.
    cbn [default]. do 2 f_equal. unfold id. lia.
Qed.

(** A positive number is written with a first digit from 1 to 9. *)
Lemma pretty_head (x : N) (s : string) :
  (0 < x)%N →
  ∃ d rest, pretty_N_go x s = String (pretty_N_char d) rest ∧ (1 ≤ d < 10)%N.
Proof.
  revert s.
  induction x as [x IH] using (well_founded_induction N.lt_wf_0).
  intros s Hx. rewrite pretty_N_go_step by done.
  assert (x `mod` 10 < 10)%N as Hmod by (apply N.mod_lt; lia).
  pose proof (N.div_mod x 10 ltac:(lia)) as Hdiv.
  destruct (decide (x `div` 10 = 0)%N) as [Hzero|Hpos].
  - rewrite Hzero, pretty_N_go_0. exists (x `mod` 10)%N, s. split; [done|lia].
  - apply IH; [apply N.div_lt; lia|lia].
Qed.

Lemma parseInt_pretty_N (x : N) : parseInt (pretty x) = Num (Z.of_N x).
Proof.
  unfold pretty, pretty_N. case_decide as Hx; [by subst|].
  assert (0 < x)%N as Hpos by lia.
  pose proof (parse_digits_pretty x "" None Hpos eq_refl) as Hparse.
  destruct (pretty_head x "" Hpos) as (d & rest & Hhead & Hd1 & Hd10).
  rewrite Hhead in Hparse |- *. revert Hparse.
  assert (d ≠ 0%N) as Hd0 by lia. revert Hd0.
  apply (small_digit d (λ d, d ≠ 0%N →
           parse_digits 10 (String (pretty_N_char d) rest) None
           = parse_digits 10 "" (Some (Z.of_N x)) →
           parseInt (String (pretty_N_char d) rest) = Num (Z.of_N x)));
    [done|done|..];
    intros _ Hparse; unfold parseInt, parse_unsigned;
    cbn [pretty_N_char trim_start is_space] in *; simpl in *;
    by rewrite Hparse.
Qed.

(** X14.  A skip or a limit sent as the decimal numeral of a number up to
    2^53, the range in which every integer is a number of JavaScript, is
    read as that number. *)
Theorem window_numeral_read_back (q : QueryParams) (n : nat)
    (limit skip : option string) :
  (Z.of_nat n ≤ 2 ^ 53)%Z →
  parseInt (pretty n) = Num (Z.of_nat n)
  ∧ page_skip (with_window q limit (Some (pretty n))) = Num (Z.of_nat n)
  ∧ page_limit (with_window q (Some (pretty n)) skip) = Num (Z.of_nat n).
Proof.
  intros _.
  assert (parseInt (pretty n) = Num (Z.of_nat n)) as Hread.
  { unfold pretty, pretty_nat. rewrite parseInt_pretty_N. f_equal. lia. }
  assert (given (Some (pretty n)) = true) as Hgiven.
  { simpl. destruct (String.eqb_spec (pretty n) "") as [Hempty|]; [|done].
    by rewrite Hempty in Hread. }
  unfold page_skip, page_limit, with_window. cbn [q_skip q_limit].
  rewrite Hgiven. done.
Qed.

Lemma window_numeral_read_back_witness :
  parseInt (pretty 250) = Num (Z.of_nat 250)
  ∧ page_skip (with_window first_page (Some "10") (Some (pretty 250)))
    = Num (Z.of_nat 250)
  ∧ page_limit (with_window first_page (Some (pretty 250)) None)
    = Num (Z.of_nat 250).
Proof.
  apply (window_numeral_read_back first_page 250 (Some "10") None).
  apply Z.leb_le. reflexivity.
Defined.

Lemma split_comma_nonempty (s : string) : split_comma s ≠ [].
Proof.
  induction s as [|c s IH]; [done|]. simpl.
  destruct (Ascii.eqb c ","); [done|]. by destruct (split_comma s).
Qed.

Lemma concat_cons_cons (sep x y : string) (l : list string) :
  String.concat sep (x :: y :: l) = x +:+ sep +:+ String.concat sep (y :: l).
Proof. done. Qed.

(** Splitting at commas loses nothing: joining the pieces with commas
    gives the string back, and no piece holds a comma. *)
Lemma split_comma_join (s : string) :
  String.concat "," (split_comma s) = s
  ∧ Forall (λ w, ","%char ∉ list_ascii_of_string w) (split_comma s).
Proof.
  induction s as [|c s [IHjoin IHpieces]].
  - split; [done|]. constructor; [apply not_elem_of_nil|done].
  - cbn [split_comma]. pose proof (split_comma_nonempty s) as Hne.
    destruct (Ascii.eqb_spec c ",") as [->|Hc].
    + destruct (split_comma s) as [|w ws]; [done|]. split.
      * by rewrite concat_cons_cons, IHjoin.
      * constructor; [apply not_elem_of_nil|done].
    + destruct (split_comma s) as [|w ws]; [done|]. split.
      * destruct ws as [|w' ws]; [by rewrite <- IHjoin|].
        rewrite concat_cons_cons in *. by rewrite <- IHjoin.
      * apply Forall_cons in IHpieces as [Hw Hws]. constructor; [|done].
        simpl. rewrite not_elem_of_cons. split; [congruence|done].
Qed.

(** X15.  The level set of a query is made of the pieces of the parameter
    between its commas, as they are: joined with commas they give the
    parameter back. *)
Theorem level_set_is_the_parameter (pid : string) (q : QueryParams)
    (levels : string) :
  q_level q = Some levels → levels ≠ "" →
  ∃ set,
    f_level (build_filter pid q) = Some set
    ∧ String.concat "," set = levels
    ∧ Forall (λ w, ","%char ∉ list_ascii_of_string w) set.
Proof.
  intros Hq Hne. exists (split_comma levels).
  destruct (split_comma_join levels) as [Hjoin Hpieces].
  split_and!; [|done|done].
  unfold build_filter. cbn [f_level]. rewrite Hq. simpl.
  by destruct (String.eqb_spec levels "").
Qed.

Lemma level_set_is_the_parameter_witness :
  ∃ set,
    f_level (build_filter "p1" errors_and_warnings_in_window) = Some set
    ∧ String.concat "," set = "ERROR,WARN"
    ∧ Forall (λ w, ","%char ∉ list_ascii_of_string w) set.
Proof.
  apply (level_set_is_the_parameter "p1" errors_and_warnings_in_window
           "ERROR,WARN");
    [reflexivity|discriminate].
Defined.

(** ** The summary endpoints *)

Lemma slice_from_0 {A : Type} (xs : list A) (n : nat) : slice xs 0 n = take n xs.
Proof. unfold slice. by rewrite Nat.sub_0_r, drop_0. Qed.

Lemma logSnapshot_first_150 (entries : list JsValue) :
  logSnapshot (take 150 entries) = logSnapshot entries.
Proof. unfold logSnapshot. by rewrite !slice_from_0, take_take. Qed.

Lemma mapM_result_cons {A B : Type} (f : A → Result B) (x : A) (l : list A) :
  mapM f (x :: l)
  = match f x with
    | Resolved y =>
        match mapM f l with
        | Resolved ys => Resolved (y :: ys)
        | Rejected m => Rejected m
        end
    | Rejected m => Rejected m
    end.
Proof. done. Qed.

Lemma mapM_resolved {A B : Type} (f : A → Result B) (l : list A) :
  Forall (λ x, ∃ y, f x = Resolved y) l → ∃ ys, mapM f l = Resolved ys.
Proof.
  induction 1 as [|x l [y Hy] _ [ys Hys]]; [by eexists|].
  rewrite mapM_result_cons, Hy, Hys. by eexists.
Qed.

Lemma mapM_rejected {A B : Type} (f : A → Result B) (l : list A) (x : A) :
  x ∈ l → (∃ m, f x = Rejected m) → ∃ m, mapM f l = Rejected m.
Proof.
  intros Hx Hfail. induction l as [|x0 l IH]; [by apply elem_of_nil in Hx|].
  rewrite mapM_result_cons.
  destruct (f x0) as [y|m0] eqn:Hx0; [|by exists m0].
  apply elem_of_cons in Hx as [->|Hx].
  { destruct Hfail as [m Hm]. congruence. }
  destruct (IH Hx) as [m ->]. by exists m.
Qed.

Lemma summary_on_entries (e : SummaryEndpoint)
    (create : ChatRequest → Result (list Choice)) (reqBody : JsObject)
    (entries : list JsValue) :
  js_get reqBody "logs" = JArr entries → entries ≠ [] →
  summary_handler e (Some create) reqBody
  = match logSnapshot entries with
    | Rejected m => (failure_response e m, [])
    | Resolved snapshot =>
        match create (chat_request e snapshot) with
        | Rejected m => (failure_response e m, [chat_request e snapshot])
        | Resolved choices =>
            (mkJson 200
               {["result" := JStr (or_fallback (first_content choices) (fallback e))]},
             [chat_request e snapshot])
        end
    end.
Proof.
  intros Hlogs Hne. unfold summary_handler. rewrite Hlogs.
  destruct entries as [|entry entries]; [done|]. done.
Qed.

(** X18.  The completion service is called at most once, and only when an API
    key is configured, the logs field is a non-empty array and the
    snapshot of its entries could be written; the request sent is the
    one made of that snapshot. *)
Theorem service_call_is_justified (e : SummaryEndpoint)
    (openai : option (ChatRequest → Result (list Choice)))
    (reqBody : JsObject) (request : ChatRequest) :
  request ∈ (summary_handler e openai reqBody).2 →
  ∃ create entries snapshot,
    openai = Some create
    ∧ js_get reqBody "logs" = JArr entries ∧ entries ≠ []
    ∧ logSnapshot entries = Resolved snapshot
    ∧ (summary_handler e openai reqBody).2 = [chat_request e snapshot]
    ∧ request = chat_request e snapshot.
Proof.
  destruct openai as [create|]; [|by intros ?%elem_of_nil].
  destruct (js_get reqBody "logs") as [| |b|z|s|entries|m] eqn:Hlogs;
    try (unfold summary_handler; rewrite Hlogs; simpl;
         repeat case_match; by intros ?%elem_of_nil).
  destruct entries as [|entry entries].
  { unfold summary_handler. rewrite Hlogs. by intros ?%elem_of_nil. }
  rewrite (summary_on_entries e create reqBody (entry :: entries)) by done.
  destruct (logSnapshot (entry :: entries)) as [snapshot|m] eqn:Hsnapshot;
    [|by intros ?%elem_of_nil].
  intros Hreq. exists create, (entry :: entries), snapshot.
  destruct (create (chat_request e snapshot));
    apply list_elem_of_singleton in Hreq; by split_and!.
Qed.

Lemma service_call_is_justified_witness :
  ∃ create entries snapshot,
    Some (answering (Some "All quiet.")) = Some create
    ∧ js_get (request_of [plain_entry]) "logs" = JArr entries ∧ entries ≠ []
    ∧ logSnapshot entries = Resolved snapshot
    ∧ (summary_handler analyze (Some (answering (Some "All quiet.")))
         (request_of [plain_entry])).2
      = [chat_request analyze snapshot]
    ∧ chat_request analyze "[2024-05-01T10:00:00Z] [ERROR] disk full"
      = chat_request analyze snapshot.
Proof.
  apply (service_call_is_justified analyze (Some (answering (Some "All quiet.")))
           (request_of [plain_entry])
           (chat_request analyze "[2024-05-01T10:00:00Z] [ERROR] disk full")).
  vm_compute. left.
Defined.

(** X19.  Only the first 150 entries count: two requests whose logs agree on
    their first 150 entries get the same answer and send the same
    request to the service. *)
Theorem only_first_150_entries (e : SummaryEndpoint)
    (openai : option (ChatRequest → Result (list Choice)))
    (body1 body2 : JsObject) (entries1 entries2 : list JsValue) :
  js_get body1 "logs" = JArr entries1 → js_get body2 "logs" = JArr entries2 →
  take 150 entries1 = take 150 entries2 →
  summary_handler e openai body1 = summary_handler e openai body2.
Proof.
  intros H1 H2 Htake. destruct openai as [create|]; [|done].
  destruct entries1 as [|x1 entries1], entries2 as [|x2 entries2]; try done.
  { unfold summary_handler. by rewrite H1, H2. }
  rewrite (summary_on_entries e create body1 (x1 :: entries1)) by done.
  rewrite (summary_on_entries e create body2 (x2 :: entries2)) by done.
  rewrite <- (logSnapshot_first_150 (x1 :: entries1)).
  rewrite <- (logSnapshot_first_150 (x2 :: entries2)).
  by rewrite Htake.
Qed.

Lemma only_first_150_entries_witness :
  summary_handler analyze (Some (answering (Some "All quiet.")))
    (request_of (replicate 150 plain_entry ++ [JNull]))
  = summary_handler analyze (Some (answering (Some "All quiet.")))
      (request_of (replicate 150 plain_entry)).
Proof.
  apply (only_first_150_entries analyze (Some (answering (Some "All quiet.")))
           _ _ (replicate 150 plain_entry ++ [JNull]) (replicate 150 plain_entry));
    reflexivity.
Defined.

(** X20.  A 200 answer always carries a result that is a non-empty string:
    the fallback text stands in for a missing or empty completion. *)
Theorem result_is_never_empty (e : SummaryEndpoint)
    (openai : option (ChatRequest → Result (list Choice)))
    (reqBody : JsObject) :
  fallback e ≠ "" →
  json_status (summary_handler e openai reqBody).1 = 200 →
  ∃ result,
    json_body (summary_handler e openai reqBody).1 = {["result" := JStr result]}
    ∧ result ≠ "".
Proof.
  intros Hfallback. destruct openai as [create|]; [|done].
  destruct (js_get reqBody "logs") as [| |b|z|s|entries|m] eqn:Hlogs;
    try (unfold summary_handler; rewrite Hlogs; simpl;
         by repeat case_match).
  destruct entries as [|entry entries].
  { unfold summary_handler. by rewrite Hlogs. }
  rewrite (summary_on_entries e create reqBody (entry :: entries)) by done.
  destruct (logSnapshot (entry :: entries)) as [snapshot|m]; [|done].
  destruct (create (chat_request e snapshot)) as [choices|m]; [|done].
  intros _. eexists. split; [done|].
  unfold or_fallback. destruct (first_content choices) as [content|]; [|done].
  by destruct (String.eqb_spec content "").
Qed.

Lemma result_is_never_empty_witness :
  ∃ result,
    json_body (analyze_handler (Some (answering (Some "")))
                 (request_of [plain_entry])).1
    = {["result" := JStr result]}
    ∧ result ≠ "".
Proof.
  apply (result_is_never_empty analyze (Some (answering (Some "")))
           (request_of [plain_entry])); [discriminate|reflexivity].
Defined.

Lemma js_to_string_primitive (v : JsValue) :
  primitive v = true → ∃ text, js_to_string v = Resolved text.
Proof. destruct v; try done; intros _; by eexists. Qed.

(** The line of a plain record can always be written. *)
Lemma log_line_plain (v : JsValue) :
  plain_record v → ∃ line, log_line v = Resolved line.
Proof.
  intros (m & -> & Hts & Hlvl & Hmsg). unfold log_line.
  cbn [js_prop mbind result_bind].
  assert (primitive (if truthy (js_get m "timestamp")
                     then js_get m "timestamp" else JStr "NO_TS") = true) as Hstamp
    by (by destruct (truthy _)).
  destruct (js_to_string_primitive _ Hstamp) as [ts ->].
  destruct (js_to_string_primitive _ Hlvl) as [lvl ->].
  destruct (js_to_string_primitive _ Hmsg) as [msg ->].
  by eexists.
Qed.

(** X21.  When a key is configured and the first 150 entries are plain
    records, the service is called, exactly once, and decides the
    answer: 200 with its completion, or the failure answer with its
    message as details. *)
Theorem plain_entries_reach_service (e : SummaryEndpoint)
    (create : ChatRequest → Result (list Choice)) (reqBody : JsObject)
    (entries : list JsValue) :
  js_get reqBody "logs" = JArr entries → entries ≠ [] →
  Forall plain_record (take 150 entries) →
  ∃ snapshot,
    logSnapshot entries = Resolved snapshot
    ∧ (summary_handler e (Some create) reqBody).2 = [chat_request e snapshot]
    ∧ (summary_handler e (Some create) reqBody).1
      = match create (chat_request e snapshot) with
        | Resolved choices =>
            mkJson 200
              {["result" := JStr (or_fallback (first_content choices) (fallback e))]}
        | Rejected m => failure_response e m
        end.
Proof.
  intros Hlogs Hne Hplain.
  assert (∃ lines, mapM log_line (slice entries 0 150) = Resolved lines)
    as [lines Hlines].
  { apply mapM_resolved. rewrite slice_from_0.
    eapply Forall_impl; [done|]. apply log_line_plain. }
  exists (String.concat newline lines).
  assert (logSnapshot entries = Resolved (String.concat newline lines)) as Hsnap
    by (unfold logSnapshot; by rewrite Hlines).
  rewrite (summary_on_entries e create reqBody entries), Hsnap by done.
  by destruct (create (chat_request e (String.concat newline lines))).
Qed.

Lemma plain_entry_is_plain : plain_record plain_entry.
Proof. eexists. split; [reflexivity|]. by vm_compute. Qed.

Lemma plain_entries_reach_service_witness :
  ∃ snapshot,
    logSnapshot [plain_entry] = Resolved snapshot
    ∧ (summary_handler anomalies (Some (answering None))
         (request_of [plain_entry])).2
      = [chat_request anomalies snapshot]
    ∧ (summary_handler anomalies (Some (answering None))
         (request_of [plain_entry])).1
      = match answering None (chat_request anomalies snapshot) with
        | Resolved choices =>
            mkJson 200
              {["result" := JStr (or_fallback (first_content choices)
                                    (fallback anomalies))]}
        | Rejected m => failure_response anomalies m
        end.
Proof.
  apply (plain_entries_reach_service anomalies (answering None)
           (request_of [plain_entry]) [plain_entry]);
    [reflexivity|discriminate|].
  constructor; [apply plain_entry_is_plain|constructor].
Defined.

(** X22.  One [null] among the first 150 entries fails the whole request: the
    answer is the failure answer and the service is not called. *)
Theorem null_entry_fails_request (e : SummaryEndpoint)
    (create : ChatRequest → Result (list Choice)) (reqBody : JsObject)
    (entries : list JsValue) (i : nat) :
  js_get reqBody "logs" = JArr entries →
  i < 150 → entries !! i = Some JNull →
  ∃ details,
    summary_handler e (Some create) reqBody = (failure_response e details, []).
Proof.
  intros Hlogs Hi Hnull.
  assert (entries ≠ []) as Hne by (by intros ->).
  assert (∃ m, mapM log_line (slice entries 0 150) = Rejected m) as [m Hm].
  { apply (mapM_rejected _ _ JNull); [|by eexists].
    rewrite slice_from_0. apply elem_of_take. by exists i. }
  exists m. rewrite (summary_on_entries e create reqBody entries) by done.
  unfold logSnapshot. by rewrite Hm.
Qed.

Lemma null_entry_fails_request_witness :
  ∃ details,
    summary_handler analyze (Some (answering (Some "All quiet.")))
      (request_of [plain_entry; JNull])
    = (failure_response analyze details, []).
Proof.
  apply (null_entry_fails_request analyze (answering (Some "All quiet."))
           (request_of [plain_entry; JNull]) [plain_entry; JNull] 1);
    [reflexivity|lia|reflexivity].
Defined.
